(** * moonlight/models/base/glyph_patches.py

    A shallow embedding of the patch input pipeline of the glyph classifier:
    discovery of the patch dimensions, the example parser, the shift and
    rotation augmentations, the serving input receiver and the wiring of the
    training and evaluation inputs.

    Conventions of the embedding.
    - a float is the rational ([Q]) it denotes; every operation that rounds
      in the code rounds here: [binary32] and [binary64] give the nearest
      number of the format, ties to even, with gradual underflow. A Python
      float (a flag, the result of [math.radians]) is a binary64 number, the
      elements of a float32 tensor are binary32 numbers. There are no
      infinities and no NaN: the embedding describes computations that stay
      within the range of the formats.
    - int64 values are [Z].
    - a rank-2 tensor is the list of its rows.
    - Python dicts ([features], the proto feature map, the receiver
      alternatives) are [gmap string _].
    - the process state read or written by the module (the flags, the files,
      the memoization cache, the random source) is one record, [World],
      threaded through a state-and-exception monad [M]; calls of the two
      filesystem primitives are logged in [io_trace]. *)

From Stdlib Require Import ZArith QArith Qminmax Qround Qabs Qpower Lia Lqa.
From stdpp Require Import base option list strings gmap.

Close Scope Q_scope.
Local Open Scope Z_scope.

(** ** Python exceptions and results *)

Inductive exn : Set :=
| TypeError            (* unpacking None, iterating None *)
| IndexError           (* value[0] of an empty repeated field *)
| KeyError             (* a missing dict key *)
| DecodeError          (* Example.FromString on bytes that are no proto *)
| DataLossError        (* a corrupted TFRecord chunk *)
| NotFoundError        (* opening a file that does not exist *)
| InvalidArgumentError (* a failing op: parsing, an unfed placeholder,
                          rotating an empty image *)
| ValueError           (* a rejected argument: a constructor, a feed *).

Inductive result (A : Type) : Type :=
| Ok (a : A)
| Raise (e : exn).
Arguments Ok {A} a.
Arguments Raise {A} e.

(** ** Flags *)

Record Flags : Type := {
  train_input_patches : option string;
  eval_input_patches : option string;
  model_dir : option string;
  use_included_label_weight : bool;
  augmentation_x_shift_probability : Q;
  augmentation_max_rotation_degrees : Q;
  eval_throttle_secs : Z;
  train_max_steps : Z
}.

(** ** tf.train.Example protos and TFRecord files *)

Inductive Feature : Type :=
| bytes_list (value : list string)
| float_list (value : list Q)
| int64_list (value : list Z)
| kind_not_set.

Record Example : Type := { features : gmap string Feature }.

(** A serialized record either decodes to an Example or it does not. *)
Inductive record : Type :=
| Serialized (example : Example)
| Malformed.

(** What a TFRecord reader finds at one position of a file. *)
Inductive chunk : Type :=
| Chunk (r : record)
| Corrupted.

Record FileSystem : Type := {
  fs_glob : gmap string (list string);   (* pattern -> files it matches *)
  fs_files : gmap string (list chunk)    (* file name -> its chunks *)
}.

Inductive io_event : Type :=
| GetMatchingFiles (pattern : string)
| TFRecordIterator (filename : string).

(** ** The process state *)

Record World : Type := {
  FLAGS : Flags;
  fs : FileSystem;
  io_trace : list io_event;             (* oldest call first *)
  _results : option (option (Z * Z));   (* cache of read_patch_dimensions *)
  rng : nat -> Z;                       (* the 32-bit words of the random
                                           generator, in the order drawn *)
  rng_draws : nat                       (* how many were consumed *)
}.

Definition log_event (e : io_event) (w : World) : World :=
  {| FLAGS := FLAGS w; fs := fs w; io_trace := io_trace w ++ [e];
     _results := _results w; rng := rng w; rng_draws := rng_draws w |}.

Definition store_result (v : option (Z * Z)) (w : World) : World :=
  {| FLAGS := FLAGS w; fs := fs w; io_trace := io_trace w;
     _results := Some v; rng := rng w; rng_draws := rng_draws w |}.

Definition advance_rng (w : World) : World :=
  {| FLAGS := FLAGS w; fs := fs w; io_trace := io_trace w;
     _results := _results w; rng := rng w; rng_draws := S (rng_draws w) |}.

(** ** The monad *)

Definition M (A : Type) : Type := World -> result A * World.

Definition raise {A} (e : exn) : M A := fun w => (Raise e, w).
Definition get_flags : M Flags := fun w => (Ok (FLAGS w), w).

#[export] Instance M_ret : MRet M := fun A a w => (Ok a, w).
#[export] Instance M_bind : MBind M := fun A B k m w =>
  match m w with
  | (Ok a, w') => k a w'
  | (Raise e, w') => (Raise e, w')
  end.

(** Python [for x in xs: body], where the body may [return]. *)
Inductive flow (R : Type) : Type :=
| Continue
| Return (r : R).
Arguments Continue {R}.
Arguments Return {R} r.

Fixpoint for_each {X R} (xs : list X) (body : X -> M (flow R)) : M (flow R) :=
  match xs with
  | [] => mret Continue
  | x :: xs' =>
      c ← body x;
      match c with
      | Continue => for_each xs' body
      | Return r => mret (Return r)
      end
  end.

(** ** Filesystem primitives (tensorflow.python.lib.io) *)

(** [file_io.get_matching_files]: iterating a [None] pattern is a TypeError;
    a pattern that matches nothing gives the empty list. *)
Definition get_matching_files (pattern : option string) : M (list string) :=
  match pattern with
  | None => raise TypeError
  | Some p =>
      fun w => (Ok (default [] (fs_glob (fs w) !! p)),
                log_event (GetMatchingFiles p) w)
  end.

(** [tf_record.tf_record_iterator]: the chunks of the file, in order. *)
Definition tf_record_iterator (filename : string) : M (list chunk) :=
  fun w => match fs_files (fs w) !! filename with
           | Some chunks => (Ok chunks, log_event (TFRecordIterator filename) w)
           | None => (Raise NotFoundError, log_event (TFRecordIterator filename) w)
           end.

(** Advancing the iterator over a chunk: a corrupted chunk raises. *)
Definition next_record (c : chunk) : M record :=
  match c with
  | Chunk r => mret r
  | Corrupted => raise DataLossError
  end.

(** [tf.train.Example.FromString]. *)
Definition FromString (r : record) : M Example :=
  match r with
  | Serialized e => mret e
  | Malformed => raise DecodeError
  end.

(** [example.features.feature[key]]: a proto map gives the default message
    for an absent key. *)
Definition feature (e : Example) (key : string) : Feature :=
  default kind_not_set (features e !! key).

(** [.int64_list.value]: empty unless the oneof holds an int64 list. *)
Definition int64_list_value (f : Feature) : list Z :=
  match f with
  | int64_list v => v
  | _ => []
  end.

Definition float_list_value (f : Feature) : list Q :=
  match f with
  | float_list v => v
  | _ => []
  end.

(** [xs[0]] *)
Definition index0 {A} (xs : list A) : M A :=
  match xs with
  | x :: _ => mret x
  | [] => raise IndexError
  end.

(** ** read_patch_dimensions *)

(** The body of the inner loop: it returns at the record it is given. *)
Definition scan_record (c : chunk) : M (flow (Z * Z)) :=
  record ← next_record c;
  example ← FromString record;
  (* Convert long (int64) to int. *)
  patch_height ← index0 (int64_list_value (feature example "height"));
  patch_width ← index0 (int64_list_value (feature example "width"));
  mret (Return (patch_height, patch_width)).

(** The body of the outer loop. *)
Definition scan_file (filename : string) : M (flow (Z * Z)) :=
  (* If one matching file is empty, go on to the next file. *)
  chunks ← tf_record_iterator filename;
  for_each chunks scan_record.

(** The undecorated function. Falling off the end of the outer loop returns
    Python's [None]. *)
Definition read_patch_dimensions_body : M (option (Z * Z)) :=
  flags ← get_flags;
  files ← get_matching_files (train_input_patches flags);
  c ← for_each files scan_file;
  mret (match c with
       | Return dims => Some dims
       | Continue => None
       end).

(** Modelled from the spec: [moonlight.util.memoize.MemoizedFunction] is not
    among the sources. The spec says the result is cached process-wide, that
    later calls are served from the cache without scanning the filesystem
    again, and that the cache is never evicted. A call that raises stores
    nothing. *)
Definition MemoizedFunction (function : M (option (Z * Z))) : M (option (Z * Z)) :=
  fun w => match _results w with
           | Some cached => (Ok cached, w)
           | None =>
               match function w with
               | (Ok v, w') => (Ok v, store_result v w')
               | (Raise e, w') => (Raise e, w')
               end
           end.

Definition read_patch_dimensions : M (option (Z * Z)) :=
  MemoizedFunction read_patch_dimensions_body.

(** [patch_height, patch_width = read_patch_dimensions()] *)
Definition unpack_pair (v : option (Z * Z)) : M (Z * Z) :=
  match v with
  | Some dims => mret dims
  | None => raise TypeError
  end.

Definition lift {A} (r : result A) : M A := fun w => (r, w).

(** ** Floating point *)

Definition pow2 (e : Z) : Q := (2 ^ e)%Q.

(** The exponent of the binade of a positive number: floor (log2 x). *)
Definition ilog2 (x : Q) : Z :=
  let e0 := Z.log2 (Qnum x) - Z.log2 (Zpos (Qden x)) in
  if Qle_bool (pow2 e0) x then e0 else e0 - 1.

(** The nearest integer, ties to even. *)
Definition round_half_even (y : Q) : Z :=
  let f := Qfloor y in
  match (y - inject_Z f ?= 1 # 2)%Q with
  | Lt => f
  | Gt => f + 1
  | Eq => if Z.even f then f else f + 1
  end.

(** The binade a format with least normal exponent [emin] files [x] under,
    and the spacing of the numbers of the format there, for a significand of
    [prec] bits. *)
Definition binade (emin : Z) (x : Q) : Z := Z.max (ilog2 x) emin.

Definition ulp (prec emin : Z) (x : Q) : Q := pow2 (binade emin x - prec + 1).

(** Rounding of a non-negative number to the nearest number of the format. *)
Definition round_nonneg (prec emin : Z) (x : Q) : Q :=
  if Qeq_bool x 0 then 0%Q
  else (inject_Z (round_half_even (x / ulp prec emin x)) * ulp prec emin x)%Q.

(** Rounding to nearest, ties to even; the result is in lowest terms. *)
Definition round_float (prec emin : Z) (x : Q) : Q :=
  Qred (if Qle_bool 0 x then round_nonneg prec emin x
        else - round_nonneg prec emin (- x))%Q.

(** IEEE 754 single and double precision. *)
Definition binary32 : Q -> Q := round_float 24 (-126).
Definition binary64 : Q -> Q := round_float 53 (-1022).

(** The numbers of a format, up to sign: zero, or a significand below
    [2 ^ prec] times a power of two not below the least one. *)
Definition dyadic (prec emin : Z) (x : Q) : Prop :=
  (x == 0)%Q
  ∨ ∃ m c, 0 < m < 2 ^ prec ∧ emin - prec + 1 <= c
           ∧ (x == inject_Z m * pow2 c)%Q.

(** ** Tensors *)

(** A patch: a rank-2 float tensor, as the list of its rows. *)
Definition Patch : Type := list (list Q).

Inductive Tensor : Type :=
| float_scalar (x : Q)
| int64_scalar (n : Z)
| float_matrix (rows : Patch).

(** [p] has shape [(H, W)]. *)
Definition has_shape (H W : nat) (p : Patch) : Prop :=
  length p = H ∧ Forall (fun row => length row = W) p.

#[export] Instance has_shape_dec H W p : Decision (has_shape H W p).
Proof. unfold has_shape. apply _. Defined.

(** Bound of a slice on a dimension of size [len]: negative indices count
    from the end, and everything is clamped into [0, len]. *)
Definition slice_bound (len : Z) (i : Z) : Z :=
  if i <? 0 then Z.max 0 (i + len) else Z.min i len.

(** [xs[start:stop]], either bound possibly omitted. *)
Definition py_slice {A} (start stop : option Z) (xs : list A) : list A :=
  let len := Z.of_nat (length xs) in
  let lo := from_option (slice_bound len) 0 start in
  let hi := from_option (slice_bound len) len stop in
  take (Z.to_nat (hi - lo)) (drop (Z.to_nat lo) xs).

(** [patch[:, start:stop]] *)
Definition slice_columns (start stop : option Z) (patch : Patch) : Patch :=
  map (py_slice start stop) patch.

(** [tf.concat([a, b], axis=1)] *)
Definition concat_axis1 (a b : Patch) : Patch := zip_with app a b.

(** [1. - patch], broadcast over the float32 tensor: each difference is
    rounded. *)
Definition one_minus (patch : Patch) : Patch :=
  map (map (fun x => binary32 (1 - x))) patch.

(** Python's [x < y] on floats; comparing two floats does not round. *)
Definition float_lt (x y : Q) : bool := negb (Qle_bool y x).

(** Python's [min(a, b)]: [b] when it is smaller, else [a]. *)
Definition py_min (a b : Q) : Q := if float_lt b a then b else a.

(** [x < y] for a float32 tensor [x] and a Python float [y]: [tf.less]
    converts [y] to a float32 tensor, which rounds it, and compares. *)
Definition less (x y : Q) : bool := float_lt x (binary32 y).

(** [math.pi], the binary64 value. *)
Definition math_pi : Q := (884279719003555 # 281474976710656)%Q.

(** [math.radians]: the product, in binary64, with the binary64 quotient
    pi / 180. *)
Definition math_radians (degrees : Q) : Q :=
  binary64 (degrees * binary64 (math_pi / 180)).

(** [tf.cond]: exactly one of the two branch functions runs. *)
Definition tf_cond {A} (pred : bool) (true_fn false_fn : unit -> A) : A :=
  if pred then true_fn () else false_fn ().

(** The float32 the random kernel makes of a 32-bit word: the low 23 bits
    are the mantissa of a number in [1, 2), from which 1 is subtracted. *)
Definition uint32_to_float (x : Z) : Q := (Z.land x 8388607 # 8388608)%Q.

(** What [tf.random_uniform] makes of the kernel's number [rnd]: the bounds
    become float32 tensors, and [rnd * (maxval - minval) + minval] is computed
    in float32. *)
Definition uniform_value (minval maxval rnd : Q) : Q :=
  let minval := binary32 minval in
  let maxval := binary32 maxval in
  binary32 (binary32 (rnd * binary32 (maxval - minval)) + minval).

(** [tf.random_uniform((), minval, maxval)]: consumes one word of the
    generator. *)
Definition random_uniform (minval maxval : Q) : M Q :=
  fun w => (Ok (uniform_value minval maxval
                  (uint32_to_float (rng w (rng_draws w)))),
            advance_rng w).

(** ** Shifts *)

Definition _shift_left (patch : Patch) : Patch :=
  concat_axis1 (slice_columns (Some 1) None patch)
               (slice_columns (Some (-1)) None patch).

Definition _shift_right (patch : Patch) : Patch :=
  concat_axis1 (slice_columns None (Some 1) patch)
               (slice_columns None (Some (-1)) patch).

Definition _augment_shift (patch : Patch) : M Patch :=
  rand ← random_uniform 0 1;
  flags ← get_flags;
  let shift_left := fun _ : unit => _shift_left patch in
  let shift_right := fun _ : unit => _shift_right patch in
  let identity := fun _ : unit => patch in
  let shift_prob := py_min 1 (augmentation_x_shift_probability flags) in
  mret (tf_cond (less rand (binary64 (shift_prob / 2)))
                shift_left
                (fun _ => tf_cond (less rand shift_prob) shift_right identity)).

(** ** Parsing of serialized examples (tf.parse_single_example) *)

Inductive DType : Set := float32 | int64.

Record FixedLenFeature : Type := { shape : list Z; dtype : DType }.

(** Row-major reshape of [h * w] values into [h] rows of [w]. *)
Fixpoint reshape (h w : nat) (values : list Q) : Patch :=
  match h with
  | O => []
  | S h' => take w values :: reshape h' w (drop w values)
  end.

(** One fixed-length feature: the proto must carry values of the requested
    type, exactly as many as the shape holds. *)
Definition parse_feature (e : Example) (key : string) (spec : FixedLenFeature)
  : option Tensor :=
  match dtype spec, shape spec with
  | float32, [h; w] =>
      let values := float_list_value (feature e key) in
      if decide (0 ≤ h ∧ 0 ≤ w ∧ Z.of_nat (length values) = h * w)
      then Some (float_matrix (reshape (Z.to_nat h) (Z.to_nat w) values))
      else None
  | float32, [] =>
      match float_list_value (feature e key) with
      | [x] => Some (float_scalar x)
      | _ => None
      end
  | int64, [] =>
      match int64_list_value (feature e key) with
      | [n] => Some (int64_scalar n)
      | _ => None
      end
  | _, _ => None
  end.

Definition parse_single_example (r : record)
    (feature_types : gmap string FixedLenFeature)
  : result (gmap string Tensor) :=
  match r with
  | Malformed => Raise InvalidArgumentError
  | Serialized e =>
      let parsed : gmap string (option Tensor) :=
        map_imap (fun key spec => Some (parse_feature e key spec)) feature_types in
      if decide (map_Forall (fun _ t => is_Some t) parsed)
      then Ok (omap id parsed)
      else Raise InvalidArgumentError
  end.

(** [features[key]] on a parsed dict. *)
Definition getitem (d : gmap string Tensor) (key : string) : M Tensor :=
  match d !! key with
  | Some t => mret t
  | None => raise KeyError
  end.

Definition as_int64 (t : Tensor) : M Z :=
  match t with
  | int64_scalar n => mret n
  | _ => raise TypeError
  end.

Definition as_float (t : Tensor) : M Q :=
  match t with
  | float_scalar x => mret x
  | _ => raise TypeError
  end.

Definition as_patch (t : Tensor) : M Patch :=
  match t with
  | float_matrix rows => mret rows
  | _ => raise TypeError
  end.

(** ** Datasets (tf.data) *)

(** A lazy dataset: the files it reads and what it maps over each record. *)
Record Dataset (T : Type) : Type := {
  ds_files : list string;
  ds_map : record -> M T
}.
Arguments ds_files {T} d.
Arguments ds_map {T} d r.

Definition TFRecordDataset (filenames : list string) : Dataset record :=
  {| ds_files := filenames; ds_map := fun r => mret r |}.

Definition dataset_map {T U} (f : T -> M U) (d : Dataset T) : Dataset U :=
  {| ds_files := ds_files d; ds_map := fun r => x ← ds_map d r; f x |}.

(** One pass over the dataset. *)
Definition dataset_elements {T} (d : Dataset T) : M (list T) :=
  per_file ← mapM (fun filename =>
                chunks ← tf_record_iterator filename;
                mapM (fun c => r ← next_record c; ds_map d r) chunks)
              (ds_files d);
  mret (concat per_file).

(** ** The serving graph *)

(** The tensors [serving_fn] creates: the string placeholder, and the
    ['patch'] output of [tf.parse_example] over a tensor of serialized
    examples. *)
Inductive GraphTensor : Type :=
| placeholder
| parse_example_patch (serialized : GraphTensor) (patch_shape : Z * Z).

#[export] Instance GraphTensor_eq_dec : EqDecision GraphTensor.
Proof. solve_decision. Defined.

Inductive Value : Type :=
| Strings (serialized : list record)
| Patches (batch : list Patch).

Definition patch_feature_types (patch_height patch_width : Z)
  : gmap string FixedLenFeature :=
  {[ "patch" := {| shape := [patch_height; patch_width]; dtype := float32 |} ]}.

(** ['patch'] of one serialized example, as [tf.parse_example] reads it. *)
Definition parse_patch (patch_shape : Z * Z) (r : record) : result Patch :=
  match parse_single_example r (patch_feature_types patch_shape.1 patch_shape.2) with
  | Ok parsed =>
      match parsed !! "patch" with
      | Some (float_matrix rows) => Ok rows
      | _ => Raise KeyError
      end
  | Raise e => Raise e
  end.

Fixpoint parse_batch (patch_shape : Z * Z) (rs : list record)
  : result (list Patch) :=
  match rs with
  | [] => Ok []
  | r :: rs' =>
      match parse_patch patch_shape r with
      | Ok p =>
          match parse_batch patch_shape rs' with
          | Ok ps => Ok (p :: ps)
          | Raise e => Raise e
          end
      | Raise e => Raise e
      end
  end.

(** Whether a value may be fed for a tensor: it must have the tensor's dtype
    and fit its static shape. The placeholder is a vector of strings of any
    length; the parsed patches are a float32 tensor of shape
    (None, height, width). *)
Definition feedable (t : GraphTensor) (v : Value) : bool :=
  match t, v with
  | placeholder, Strings _ => true
  | parse_example_patch _ patch_shape, Patches batch =>
      bool_decide (0 ≤ patch_shape.1 ∧ 0 ≤ patch_shape.2
                   ∧ Forall (has_shape (Z.to_nat patch_shape.1)
                                       (Z.to_nat patch_shape.2)) batch)
  | _, _ => false
  end.

(** The value of tensor [t] when [fed_value] stands for the tensor [fed]: a
    fed tensor takes the fed value, an unfed placeholder is an error, and any
    other tensor is computed from its inputs. *)
Fixpoint evaluate (fed : GraphTensor) (fed_value : Value) (t : GraphTensor)
  : result Value :=
  if decide (t = fed) then Ok fed_value
  else match t with
       | placeholder => Raise InvalidArgumentError
       | parse_example_patch serialized patch_shape =>
           match evaluate fed fed_value serialized with
           | Ok (Strings rs) =>
               match parse_batch patch_shape rs with
               | Ok ps => Ok (Patches ps)
               | Raise e => Raise e
               end
           | Ok (Patches _) => Raise InvalidArgumentError
           | Raise e => Raise e
           end
       end.

(** Running the graph for tensor [t] when the request feeds [fed_value] for
    the tensor [fed]: the feed is checked against the tensor it is for before
    anything is computed. *)
Definition run (fed : GraphTensor) (fed_value : Value) (t : GraphTensor)
  : result Value :=
  if feedable fed fed_value then evaluate fed fed_value t
  else Raise ValueError.

Record ServingInputReceiver : Type := {
  sir_features : gmap string GraphTensor;
  receiver_tensors : GraphTensor;
  receiver_tensors_alternatives : gmap string GraphTensor
}.

Definition serving_fn : M ServingInputReceiver :=
  let examples := placeholder in
  dims ← read_patch_dimensions;
  '(patch_height, patch_width) ← unpack_pair dims;
  let parsed_patch := parse_example_patch examples (patch_height, patch_width) in
  mret {| sir_features := {[ "patch" := parsed_patch ]};
          receiver_tensors := parsed_patch;
          receiver_tensors_alternatives :=
            {[ "example" := examples; "patch" := parsed_patch ]} |}.

(** What the exported model receives as feature [key] when a request feeds
    [fed_value] for the receiver tensor [fed]. *)
Definition served_feature (sir : ServingInputReceiver) (key : string)
    (fed : GraphTensor) (fed_value : Value) : result Value :=
  match sir_features sir !! key with
  | Some t => run fed fed_value t
  | None => Raise KeyError
  end.

(** ** The pipeline, over its external collaborators *)

Section Pipeline.

(** The pixels [tf.contrib.image.rotate] computes for an image that has
    rows and columns, with bilinear interpolation. *)
Variable bilinear_rotation : Patch -> Q -> Patch.

(** [label_weights.weights_from_labels] *)
Variable weights_from_labels : Z -> Q.

(** [batches.get_batched_tensor] *)
Context {BatchedTensor : Type}.
Variable get_batched_tensor : Dataset (gmap string Tensor * Z) -> BatchedTensor.

(** [tf.contrib.image.rotate(images, angles, interpolation='BILINEAR')] on
    one image: the op refuses an image without rows or without columns (its
    output dimensions must be positive). *)
Definition rotate (images : Patch) (angles : Q) : result Patch :=
  match images with
  | [] => Raise InvalidArgumentError
  | [] :: _ => Raise InvalidArgumentError
  | _ :: _ => Ok (bilinear_rotation images angles)
  end.

Definition _augment_rotation (patch : Patch) : M Patch :=
  flags ← get_flags;
  let max_rotation_radians :=
    math_radians (augmentation_max_rotation_degrees flags) in
  rotation ← random_uniform (- max_rotation_radians)%Q max_rotation_radians;
  (* Background is white (1.0) but rotate fills the edges with black (0).
     Invert the patch before rotating. *)
  rotated ← lift (rotate (one_minus patch) rotation);
  mret (one_minus rotated).

Definition _augment (patch : Patch) : M Patch :=
  shifted ← _augment_shift patch;
  _augment_rotation shifted.

(** The [feature_types] dict of [parser]: ['label_weight'] is requested
    only under the flag. *)
Definition parser_feature_types (patch_height patch_width : Z)
    (with_label_weight : bool) : gmap string FixedLenFeature :=
  let feature_types : gmap string FixedLenFeature :=
    {[ "patch" := {| shape := [patch_height; patch_width]; dtype := float32 |};
       "label" := {| shape := []; dtype := int64 |} ]} in
  if with_label_weight
  then <[ "label_weight" := {| shape := []; dtype := float32 |} ]> feature_types
  else feature_types.

Definition parser (patch_height patch_width : Z) (r : record)
  : M (gmap string Tensor * Z) :=
  flags ← get_flags;
  let feature_types :=
    parser_feature_types patch_height patch_width
                         (use_included_label_weight flags) in
  features ← lift (parse_single_example r feature_types);
  label ← (t ← getitem features "label"; as_int64 t);
  let weight := weights_from_labels label in
  weight ← (if use_included_label_weight flags
            then label_weight ← (t ← getitem features "label_weight";
                                 as_float t);
                 mret (binary32 (weight * label_weight))
            else mret weight);
  patch ← (t ← getitem features "patch"; p ← as_patch t; _augment p);
  mret ({[ "patch" := float_matrix patch; "weight" := float_scalar weight ]},
        label).

Definition input_fn (input_patches : option string) : M BatchedTensor :=
  dims ← read_patch_dimensions;
  '(patch_height, patch_width) ← unpack_pair dims;
  files ← get_matching_files input_patches;
  let dataset := TFRecordDataset files in
  mret (get_batched_tensor (dataset_map (parser patch_height patch_width) dataset)).

(** The specs [train_and_evaluate] hands to the training driver, as records
    of the arguments their constructors are given. *)
Record TrainSpec : Type := {
  train_input_fn : M BatchedTensor;
  max_steps : Z
}.

Record EvalSpec : Type := {
  eval_input_fn : M BatchedTensor;
  start_delay_secs : Z;
  throttle_secs : Z;
  exporters : list (string * M ServingInputReceiver)
}.

(** [tf.estimator.train_and_evaluate], for an estimator type [Estimator]. *)
Context {Estimator : Type}.
Variable tf_estimator_train_and_evaluate :
  Estimator -> TrainSpec -> EvalSpec -> M unit.

Definition make_train_spec (flags : Flags) : TrainSpec :=
  {| train_input_fn :=
       (flags' ← get_flags; input_fn (train_input_patches flags'));
     max_steps := train_max_steps flags |}.

Definition make_eval_spec (flags : Flags) : EvalSpec :=
  {| eval_input_fn :=
       (flags' ← get_flags; input_fn (eval_input_patches flags'));
     start_delay_secs := 0;
     throttle_secs := eval_throttle_secs flags;
     exporters := [("exporter", serving_fn)] |}.

(** [tf.estimator.TrainSpec(...)]: the constructor refuses a [max_steps]
    that is not positive. *)
Definition TrainSpec_new (spec : TrainSpec) : M TrainSpec :=
  if decide (max_steps spec ≤ 0) then raise ValueError else mret spec.

(** [tf.estimator.EvalSpec(...)]: the constructor refuses a negative
    [start_delay_secs] or [throttle_secs]. *)
Definition EvalSpec_new (spec : EvalSpec) : M EvalSpec :=
  if decide (start_delay_secs spec < 0) then raise ValueError
  else if decide (throttle_secs spec < 0) then raise ValueError
  else mret spec.

Definition train_and_evaluate (estimator : Estimator) : M unit :=
  flags ← get_flags;
  train_spec ← TrainSpec_new (make_train_spec flags);
  eval_spec ← EvalSpec_new (make_eval_spec flags);
  tf_estimator_train_and_evaluate estimator train_spec eval_spec.

End Pipeline.

(** ** The feature column *)

Section FeatureColumn.

(** [tf.feature_column.numeric_column(key, shape=...)], for a column type
    [NumericColumn]. *)
Context {NumericColumn : Type}.
Variable numeric_column : string -> option (Z * Z) -> NumericColumn.

Definition create_patch_feature_column : M NumericColumn :=
  dims ← read_patch_dimensions;
  mret (numeric_column "patch" dims).

End FeatureColumn.

(** ** Vocabulary of the properties *)

(** Column [j] of a patch, top to bottom. *)
Definition column (patch : Patch) (j : nat) : list (option Q) :=
  map (fun row => row !! j) patch.

(** What the two shifts do to one row of the patch. *)
Definition shift_left_row (row : list Q) : list Q :=
  drop 1 row ++ drop (length row - 1) row.

Definition shift_right_row (row : list Q) : list Q :=
  take 1 row ++ take (length row - 1) row.

(** The three branches of the shift augmentation, the draws that select
    each, and what each returns. *)
Inductive ShiftBranch : Set := shift_left | shift_right | identity.

(** The draws [r] that select each branch, for a left threshold [half] and
    a right threshold [full]. *)
Definition branch_selected (b : ShiftBranch) (r half full : Q) : Prop :=
  match b with
  | shift_left => (r < half)%Q
  | shift_right => (half <= r)%Q ∧ (r < full)%Q
  | identity => ¬ (r < half)%Q ∧ ¬ ((half <= r)%Q ∧ (r < full)%Q)
  end.

Definition branch_output (b : ShiftBranch) (patch : Patch) : Patch :=
  match b with
  | shift_left => _shift_left patch
  | shift_right => _shift_right patch
  | identity => patch
  end.

(** Every pixel lies between black (0) and white (1). *)
Definition unit_pixels (patch : Patch) : Prop :=
  Forall (Forall (fun x => (0 <= x)%Q ∧ (x <= 1)%Q)) patch.

(** Two patches of the same shape whose pixels differ by at most [tol]. *)
Definition close (tol : Q) (p q : Patch) : Prop :=
  Forall2 (Forall2 (fun x y => (Qabs (x - y) <= tol)%Q)) p q.

(** Dimension discovery as the specification words it: a record counts when
    it parses and carries both integer lists with a value; a file answers
    with its first such record; files that give none are passed over. *)
Definition spec_record_dimensions (c : chunk) : option (Z * Z) :=
  match c with
  | Chunk (Serialized e) =>
      match int64_list_value (feature e "height"),
            int64_list_value (feature e "width") with
      | h :: _, w :: _ => Some (h, w)
      | _, _ => None
      end
  | _ => None
  end.

Fixpoint spec_first_dimensions (chunks : list chunk) : option (Z * Z) :=
  match chunks with
  | [] => None
  | c :: rest =>
      match spec_record_dimensions c with
      | Some dims => Some dims
      | None => spec_first_dimensions rest
      end
  end.

Fixpoint spec_scan_files (files : FileSystem) (names : list string)
  : option (Z * Z) :=
  match names with
  | [] => None
  | name :: rest =>
      match spec_first_dimensions (default [] (fs_files files !! name)) with
      | Some dims => Some dims
      | None => spec_scan_files files rest
      end
  end.

Definition spec_dimension_discovery (w : World) : option (Z * Z) :=
  match train_input_patches (FLAGS w) with
  | Some pattern =>
      spec_scan_files (fs w) (default [] (fs_glob (fs w) !! pattern))
  | None => None
  end.

(** ** Sample data *)

Definition sample_flags (with_label_weight : bool) : Flags :=
  {| train_input_patches := Some "train-*";
     eval_input_patches := Some "eval-*";
     model_dir := Some "/tmp/model";
     use_included_label_weight := with_label_weight;
     augmentation_x_shift_probability := (1 # 2)%Q;
     augmentation_max_rotation_degrees := 2%Q;
     eval_throttle_secs := 60;
     train_max_steps := 100000 |}.

Definition dimensions_example (height width : list Z) : Example :=
  {| features := {[ "height" := int64_list height;
                    "width" := int64_list width ]} |}.

Definition labeled_patch (height width : list Z) (pixels : list Q)
    (label : Z) (label_weight : Q) : Example :=
  {| features := {[ "height" := int64_list height;
                    "width" := int64_list width;
                    "patch" := float_list pixels;
                    "label" := int64_list [label];
                    "label_weight" := float_list [label_weight] ]} |}.

Definition sample_world (with_label_weight : bool) (files : FileSystem) : World :=
  {| FLAGS := sample_flags with_label_weight;
     fs := files;
     io_trace := [];
     _results := None;
     rng := fun n => match n with
                     | O => 1048576
                     | S _ => 6291456
                     end;
     rng_draws := 0 |}.

(** The draws of [sample_world] are 1/8, then 3/4. A state with the given
    shift probability and no rotation; its draws are 1/8, then 5/8. *)
Definition with_shift_probability (p_shift : Q) : World :=
  {| FLAGS := {| train_input_patches := Some "train-*";
                 eval_input_patches := Some "eval-*";
                 model_dir := None;
                 use_included_label_weight := false;
                 augmentation_x_shift_probability := p_shift;
                 augmentation_max_rotation_degrees := 0;
                 eval_throttle_secs := 60;
                 train_max_steps := 0 |};
     fs := {| fs_glob := ∅; fs_files := ∅ |};
     io_trace := [];
     _results := None;
     rng := fun n => match n with
                     | O => 1048576
                     | S _ => 5242880
                     end;
     rng_draws := 0 |}.

(** The same state with another stream of random words. *)
Definition with_rng (words : nat -> Z) (w : World) : World :=
  {| FLAGS := FLAGS w; fs := fs w; io_trace := io_trace w;
     _results := _results w; rng := words; rng_draws := rng_draws w |}.

(** A state with the given rotation bound, in degrees, whose random words
    are all 0. *)
Definition with_max_rotation_degrees (degrees : Q) : World :=
  {| FLAGS := {| train_input_patches := Some "train-*";
                 eval_input_patches := Some "eval-*";
                 model_dir := None;
                 use_included_label_weight := false;
                 augmentation_x_shift_probability := (1 # 2)%Q;
                 augmentation_max_rotation_degrees := degrees;
                 eval_throttle_secs := 60;
                 train_max_steps := 100000 |};
     fs := {| fs_glob := ∅; fs_files := ∅ |};
     io_trace := [];
     _results := None;
     rng := fun _ => 0;
     rng_draws := 0 |}.

(** No file matches the training glob. *)
Definition no_files : FileSystem :=
  {| fs_glob := ∅; fs_files := ∅ |}.

(** Every matching file is empty. *)
Definition empty_files : FileSystem :=
  {| fs_glob := {[ "train-*" := ["train-0"; "train-1"] ]};
     fs_files := {[ "train-0" := []; "train-1" := [] ]} |}.

(** An empty file, then a file of 2x3 patches; the evaluation file holds
    3x2 patches. *)
Definition good_files : FileSystem :=
  {| fs_glob := {[ "train-*" := ["train-0"; "train-1"];
                   "eval-*" := ["eval-0"] ]};
     fs_files :=
       {[ "train-0" := [];
          "train-1" :=
            [Chunk (Serialized
               (labeled_patch [2] [3] [1; 0; 1; 1; (1 # 2); 1]%Q 4 (1 # 4)%Q));
             Corrupted];
          "eval-0" :=
            [Chunk (Serialized
               (labeled_patch [3] [2] [1; 1; 0; 0; 1; 1]%Q 1 1%Q))] ]} |}.

(** The first record has no height value, the second has both lists. *)
Definition late_dimensions_files : FileSystem :=
  {| fs_glob := {[ "train-*" := ["train-0"] ]};
     fs_files :=
       {[ "train-0" := [Chunk (Serialized (dimensions_example [] [7]));
                        Chunk (Serialized (dimensions_example [5] [7]))] ]} |}.

(** A corrupted file, then a good one. *)
Definition corrupted_first_files : FileSystem :=
  {| fs_glob := {[ "train-*" := ["train-0"; "train-1"] ]};
     fs_files :=
       {[ "train-0" := [Corrupted];
          "train-1" := [Chunk (Serialized (dimensions_example [5] [7]))] ]} |}.

Definition sample_patch : Patch := [[1; 0; (1 # 2)]; [0; 1; 1]]%Q.

Definition sample_record : record :=
  Serialized (labeled_patch [2] [3] [1; 0; 1; 1; (1 # 2); 1]%Q 4 (1 # 4)%Q).

(** Several logged calls at once. *)
Definition log_events (es : list io_event) (w : World) : World :=
  {| FLAGS := FLAGS w; fs := fs w; io_trace := io_trace w ++ es;
     _results := _results w; rng := rng w; rng_draws := rng_draws w |}.

(** * Properties *)

(** Unfolds the binds and returns of [M] in the goal; [unfold_monad] also
    computes. *)
Ltac unfold_binds :=
  unfold mbind, M_bind, mret, M_ret, raise, lift, get_flags; cbv beta.

Ltac unfold_monad :=
  unfold mbind, M_bind, mret, M_ret, raise, lift, get_flags, random_uniform;
  simpl.

(** ** Rounding *)

Lemma pow2_pos e : (0 < pow2 e)%Q.
Proof. apply Qpower_0_lt. reflexivity. Qed.

Lemma pow2_add a b : (pow2 (a + b) == pow2 a * pow2 b)%Q.
Proof. apply Qpower_plus. discriminate. Qed.

Lemma pow2_sub a b : (pow2 (a - b) == pow2 a / pow2 b)%Q.
Proof. apply Qpower_minus. discriminate. Qed.

Lemma pow2_le a b : a <= b -> (pow2 a <= pow2 b)%Q.
Proof. intros Hab. apply Qpower_le_compat_l; [exact Hab | discriminate]. Qed.

Lemma pow2_lt a b : a < b -> (pow2 a < pow2 b)%Q.
Proof. intros Hab. apply Qpower_lt_compat_l; [exact Hab | reflexivity]. Qed.

Lemma pow2_lt_inv a b : (pow2 a < pow2 b)%Q -> a < b.
Proof.
  intros Hlt. destruct (Z_lt_le_dec a b) as [Hab|Hba]; [exact Hab|].
  apply pow2_le in Hba. lra.
Qed.

Lemma pow2_Z n : 0 <= n -> (pow2 n == inject_Z (2 ^ n))%Q.
Proof. intros Hn. unfold pow2. by rewrite Zpower_Qpower. Qed.

Lemma pow2_succ e : (pow2 (e + 1) == 2 * pow2 e)%Q.
Proof. rewrite pow2_add. change (pow2 1) with 2%Q. ring. Qed.

Lemma Qmake_mult_den n d : ((n # d) * inject_Z (Zpos d) == inject_Z n)%Q.
Proof. unfold Qeq, Qmult, inject_Z; simpl. lia. Qed.

Lemma ilog2_spec x :
  (0 < x)%Q -> (pow2 (ilog2 x) <= x)%Q ∧ (x < pow2 (ilog2 x + 1))%Q.
Proof.
  intros Hx. destruct x as [n d].
  assert (Hn : 0 < n) by (unfold Qlt in Hx; simpl in Hx; lia).
  pose proof (Z.log2_spec n Hn) as [Hn1 Hn2].
  pose proof (Z.log2_spec (Zpos d) (Pos2Z.is_pos d)) as [Hd1 Hd2].
  pose proof (Z.log2_nonneg n) as Ha. pose proof (Z.log2_nonneg (Zpos d)) as Hb.
  set (a := Z.log2 n) in *. set (b := Z.log2 (Zpos d)) in *.
  pose proof (Qmake_mult_den n d) as HX.
  set (X := (n # d)%Q) in *. set (D := inject_Z (Zpos d)) in *.
  set (N := inject_Z n) in *.
  assert (HD : (0 < D)%Q) by (unfold D, Qlt, inject_Z; cbn [Qnum Qden]; lia).
  assert (Hupper : (X < pow2 (a - b + 1))%Q).
  { replace (a - b + 1) with (a + 1 - b) by lia. rewrite pow2_sub.
    apply Qlt_shift_div_l; [apply pow2_pos|].
    rewrite (pow2_Z (a + 1)), (pow2_Z b) by lia.
    assert (H1 : (N < inject_Z (2 ^ (a + 1)))%Q)
      by (unfold N; rewrite <- Zlt_Qlt; exact Hn2).
    assert (H2 : (inject_Z (2 ^ b) <= D)%Q)
      by (unfold D; rewrite <- Zle_Qle; exact Hd1).
    assert (H3 : (0 < inject_Z (2 ^ b))%Q).
    { assert (0 < 2 ^ b) by (apply Z.pow_pos_nonneg; lia).
      unfold Qlt, inject_Z; cbn [Qnum Qden]; lia. }
    nra. }
  assert (Hlower : (pow2 (a - b - 1) < X)%Q).
  { replace (a - b - 1) with (a - (b + 1)) by lia. rewrite pow2_sub.
    apply Qlt_shift_div_r; [apply pow2_pos|].
    rewrite (pow2_Z a), (pow2_Z (b + 1)) by lia.
    assert (H1 : (inject_Z (2 ^ a) <= N)%Q)
      by (unfold N; rewrite <- Zle_Qle; exact Hn1).
    assert (H2 : (D < inject_Z (2 ^ (b + 1)))%Q)
      by (unfold D; rewrite <- Zlt_Qlt; exact Hd2).
    nra. }
  unfold ilog2. simpl Qnum; simpl Qden. fold a b. fold X.
  destruct (Qle_bool (pow2 (a - b)) X) eqn:Htest.
  - apply Qle_bool_iff in Htest. split; [exact Htest | exact Hupper].
  - assert (Hlt : (X < pow2 (a - b))%Q).
    { apply Qnot_le_lt. intros Hle. apply Qle_bool_iff in Hle. congruence. }
    split; [by apply Qlt_le_weak|].
    by replace (a - b - 1 + 1) with (a - b) by lia.
Qed.

Lemma ilog2_unique x e :
  (pow2 e <= x)%Q -> (x < pow2 (e + 1))%Q -> ilog2 x = e.
Proof.
  intros Hlo Hhi.
  assert (Hx : (0 < x)%Q) by (pose proof (pow2_pos e); lra).
  destruct (ilog2_spec x Hx) as [Hlo' Hhi'].
  assert (H1 : ilog2 x < e + 1) by (apply pow2_lt_inv; lra).
  assert (H2 : e < ilog2 x + 1) by (apply pow2_lt_inv; lra).
  lia.
Qed.

Lemma ilog2_mono x y : (0 < x)%Q -> (x <= y)%Q -> ilog2 x <= ilog2 y.
Proof.
  intros Hx Hxy.
  destruct (ilog2_spec x Hx) as [Hlo _].
  destruct (ilog2_spec y) as [_ Hhi]; [lra|].
  assert (H1 : ilog2 x < ilog2 y + 1) by (apply pow2_lt_inv; lra).
  lia.
Qed.

(** Rounding to the nearest integer *)

Lemma round_half_even_cases y :
  let f := Qfloor y in
  (inject_Z f <= y)%Q ∧ (y < inject_Z f + 1)%Q
  ∧ ((round_half_even y = f ∧ (y - inject_Z f <= 1 # 2)%Q
      ∧ ((y - inject_Z f == 1 # 2)%Q -> Z.even f = true))
     ∨ (round_half_even y = f + 1 ∧ (1 # 2 <= y - inject_Z f)%Q
        ∧ ((y - inject_Z f == 1 # 2)%Q -> Z.even f = false))).
Proof.
  intros f. pose proof (Qfloor_le y) as Hlo. pose proof (Qlt_floor y) as Hhi.
  fold f in Hlo, Hhi. rewrite inject_Z_plus in Hhi.
  change (inject_Z 1) with 1%Q in Hhi.
  split; [exact Hlo|]. split; [exact Hhi|].
  unfold round_half_even. fold f.
  destruct (Qcompare_spec (y - inject_Z f) (1 # 2)) as [Heq|Hlt|Hgt].
  - destruct (Z.even f) eqn:Heven.
    + left. split; [reflexivity|]. split; [lra | done].
    + right. split; [reflexivity|]. split; [lra | done].
  - left. split; [reflexivity|]. split; [lra|]. intros Heq. exfalso. lra.
  - right. split; [reflexivity|]. split; [lra|]. intros Heq. exfalso. lra.
Qed.

Lemma round_half_even_error y :
  (y - (1 # 2) <= inject_Z (round_half_even y))%Q
  ∧ (inject_Z (round_half_even y) <= y + (1 # 2))%Q.
Proof.
  destruct (round_half_even_cases y) as (Hlo & Hhi & [(-> & Hd & _)|(-> & Hd & _)]).
  - split; lra.
  - rewrite inject_Z_plus. change (inject_Z 1) with 1%Q. split; lra.
Qed.

Lemma round_half_even_proper y y' :
  (y == y')%Q -> round_half_even y = round_half_even y'.
Proof.
  intros Heq. unfold round_half_even.
  rewrite (Qfloor_comp y y' Heq).
  assert (Hd : (y - inject_Z (Qfloor y') == y' - inject_Z (Qfloor y'))%Q)
    by (rewrite Heq; reflexivity).
  by rewrite (Qcompare_comp _ _ Hd (1 # 2)%Q (1 # 2)%Q (Qeq_refl _)).
Qed.

Lemma round_half_even_Z n : round_half_even (inject_Z n) = n.
Proof.
  unfold round_half_even. rewrite Qfloor_Z.
  assert (Hd : (inject_Z n - inject_Z n == 0)%Q) by ring.
  by rewrite (Qcompare_comp _ _ Hd (1 # 2)%Q (1 # 2)%Q (Qeq_refl _)).
Qed.

Lemma round_half_even_mono y y' :
  (y <= y')%Q -> round_half_even y <= round_half_even y'.
Proof.
  intros Hle. pose proof (Qfloor_resp_le y y' Hle) as Hfloor.
  destruct (round_half_even_cases y) as (Hlo & Hhi & Hy).
  destruct (round_half_even_cases y') as (Hlo' & Hhi' & Hy').
  destruct (Z.eq_dec (Qfloor y) (Qfloor y')) as [Heq|Hne].
  - rewrite <- Heq in *.
    destruct Hy as [(-> & Hd & He)|(-> & Hd & He)],
             Hy' as [(-> & Hd' & He')|(-> & Hd' & He')]; try lia.
    assert (H1 : (y - inject_Z (Qfloor y) == 1 # 2)%Q) by lra.
    assert (H2 : (y' - inject_Z (Qfloor y) == 1 # 2)%Q) by lra.
    specialize (He H1). specialize (He' H2). congruence.
  - destruct Hy as [(-> & _)|(-> & _)], Hy' as [(-> & _)|(-> & _)]; lia.
Qed.

Lemma round_half_even_le_Z y n :
  (y <= inject_Z n)%Q -> round_half_even y <= n.
Proof.
  intros Hle. rewrite <- (round_half_even_Z n). by apply round_half_even_mono.
Qed.

Lemma round_half_even_ge_Z y n :
  (inject_Z n <= y)%Q -> n <= round_half_even y.
Proof.
  intros Hle. rewrite <- (round_half_even_Z n). by apply round_half_even_mono.
Qed.

Lemma Qdiv_le_mono a b c : (0 < c)%Q -> (a <= b)%Q -> (a / c <= b / c)%Q.
Proof.
  intros Hc Hab. unfold Qdiv. apply Qmult_le_compat_r; [exact Hab|].
  apply Qlt_le_weak, Qinv_lt_0_compat, Hc.
Qed.

Lemma Qdiv_mult_cancel a c : (0 < c)%Q -> (a / c * c == a)%Q.
Proof. intros Hc. field. lra. Qed.

Section Rounding.

Variables prec emin : Z.
Hypothesis prec_pos : 1 <= prec.

Lemma ulp_pos x : (0 < ulp prec emin x)%Q.
Proof. apply pow2_pos. Qed.

Lemma round_nonneg_unfold x :
  (0 < x)%Q ->
  round_nonneg prec emin x
  = (inject_Z (round_half_even (x / ulp prec emin x)) * ulp prec emin x)%Q.
Proof.
  intros Hx. unfold round_nonneg.
  destruct (Qeq_bool x 0) eqn:Hzero; [|reflexivity].
  apply Qeq_bool_iff in Hzero. lra.
Qed.

Lemma round_nonneg_zero x : (x == 0)%Q -> round_nonneg prec emin x = 0%Q.
Proof.
  intros Hx. unfold round_nonneg.
  destruct (Qeq_bool x 0) eqn:Hzero; [reflexivity|].
  apply Qeq_bool_neq in Hzero. contradiction.
Qed.

Lemma below_next_binade x : (0 < x)%Q -> (x < pow2 (binade emin x + 1))%Q.
Proof.
  intros Hx. destruct (ilog2_spec x Hx) as [_ Hhi].
  assert (Hle : (pow2 (ilog2 x + 1) <= pow2 (binade emin x + 1))%Q)
    by (apply pow2_le; unfold binade; lia).
  lra.
Qed.

Lemma scaled_binade x k :
  (pow2 (binade emin x + k) / ulp prec emin x == pow2 (prec - 1 + k))%Q.
Proof.
  unfold ulp. rewrite <- pow2_sub.
  by replace (binade emin x + k - (binade emin x - prec + 1)) with (prec - 1 + k) by lia.
Qed.

Lemma scaled_binade_Z x k :
  0 <= prec - 1 + k ->
  (pow2 (binade emin x + k) / ulp prec emin x == inject_Z (2 ^ (prec - 1 + k)))%Q.
Proof. intros Hk. by rewrite scaled_binade, pow2_Z. Qed.

Lemma unscale_binade x k :
  0 <= prec - 1 + k ->
  (inject_Z (2 ^ (prec - 1 + k)) * ulp prec emin x == pow2 (binade emin x + k))%Q.
Proof.
  intros Hk. rewrite <- (scaled_binade_Z x k Hk).
  apply Qdiv_mult_cancel, ulp_pos.
Qed.

Lemma round_nonneg_nonneg x : (0 <= x)%Q -> (0 <= round_nonneg prec emin x)%Q.
Proof.
  intros Hx. destruct (Qeq_dec x 0) as [Hzero|Hnz].
  - by rewrite round_nonneg_zero.
  - assert (Hpos : (0 < x)%Q) by (destruct (Qlt_le_dec 0 x); [done|]; exfalso; apply Hnz; lra).
    rewrite round_nonneg_unfold by exact Hpos.
    pose proof (ulp_pos x) as Hulp.
    assert (Hn : 0 <= round_half_even (x / ulp prec emin x)).
    { apply round_half_even_ge_Z. change (inject_Z 0) with 0%Q.
      apply Qle_shift_div_l; [exact Hulp | lra]. }
    apply Qmult_le_0_compat; [|lra].
    unfold Qle, inject_Z; cbn [Qnum Qden]. lia.
Qed.

Lemma round_nonneg_upper x :
  (0 < x)%Q -> (round_nonneg prec emin x <= pow2 (binade emin x + 1))%Q.
Proof.
  intros Hx. rewrite round_nonneg_unfold by exact Hx.
  pose proof (ulp_pos x) as Hulp.
  pose proof (below_next_binade x Hx) as Hhi.
  assert (Hk : 0 <= prec - 1 + 1) by lia.
  assert (Hscaled : (x / ulp prec emin x <= inject_Z (2 ^ (prec - 1 + 1)))%Q).
  { rewrite <- (scaled_binade_Z x 1 Hk).
    apply Qdiv_le_mono; [exact Hulp | lra]. }
  apply round_half_even_le_Z in Hscaled.
  rewrite <- (unscale_binade x 1 Hk).
  apply Qmult_le_compat_r; [|lra].
  rewrite <- Zle_Qle. exact Hscaled.
Qed.

Lemma round_nonneg_lower x :
  (0 < x)%Q -> emin <= ilog2 x ->
  (pow2 (ilog2 x) <= round_nonneg prec emin x)%Q.
Proof.
  intros Hx Hnormal. rewrite round_nonneg_unfold by exact Hx.
  pose proof (ulp_pos x) as Hulp.
  destruct (ilog2_spec x Hx) as [Hlo _].
  assert (Hbin : ilog2 x = binade emin x + 0) by (unfold binade; lia).
  rewrite Hbin in Hlo |- *.
  assert (Hk : 0 <= prec - 1 + 0) by lia.
  assert (Hscaled : (inject_Z (2 ^ (prec - 1 + 0)) <= x / ulp prec emin x)%Q).
  { rewrite <- (scaled_binade_Z x 0 Hk). by apply Qdiv_le_mono. }
  apply round_half_even_ge_Z in Hscaled.
  rewrite <- (unscale_binade x 0 Hk).
  apply Qmult_le_compat_r; [|lra].
  rewrite <- Zle_Qle. exact Hscaled.
Qed.

Lemma binade_mono x y : (0 < x)%Q -> (x <= y)%Q -> binade emin x <= binade emin y.
Proof.
  intros Hx Hxy. pose proof (ilog2_mono x y Hx Hxy). unfold binade. lia.
Qed.

Lemma round_nonneg_proper x y :
  (0 <= x)%Q -> (x == y)%Q ->
  round_nonneg prec emin x = round_nonneg prec emin y.
Proof.
  intros Hx Heq. destruct (Qeq_dec x 0) as [Hzero|Hnz].
  - rewrite (round_nonneg_zero x Hzero), (round_nonneg_zero y);
      [reflexivity | by rewrite <- Heq].
  - assert (Hpos : (0 < x)%Q)
      by (destruct (Qlt_le_dec 0 x); [done|]; exfalso; apply Hnz; lra).
    assert (Hpos' : (0 < y)%Q) by (by rewrite <- Heq).
    rewrite !round_nonneg_unfold by assumption.
    assert (Hlog : ilog2 y = ilog2 x).
    { destruct (ilog2_spec x Hpos) as [Hlo Hhi].
      apply ilog2_unique; by rewrite <- Heq. }
    unfold ulp, binade. rewrite Hlog. f_equal. f_equal.
    apply round_half_even_proper.
    unfold Qdiv. apply Qmult_comp; [exact Heq | reflexivity].
Qed.

Lemma round_nonneg_mono x y :
  (0 <= x)%Q -> (x <= y)%Q ->
  (round_nonneg prec emin x <= round_nonneg prec emin y)%Q.
Proof.
  intros Hx Hxy. destruct (Qeq_dec x 0) as [Hzero|Hnz].
  - rewrite (round_nonneg_zero x Hzero). apply round_nonneg_nonneg. lra.
  - assert (Hpos : (0 < x)%Q)
      by (destruct (Qlt_le_dec 0 x); [done|]; exfalso; apply Hnz; lra).
    assert (Hpos' : (0 < y)%Q) by lra.
    pose proof (binade_mono x y Hpos Hxy) as Hbin.
    destruct (Z.eq_dec (binade emin x) (binade emin y)) as [Hsame|Hdiff].
    + rewrite !round_nonneg_unfold by assumption.
      unfold ulp. rewrite Hsame. fold (ulp prec emin y).
      pose proof (ulp_pos y) as Hulp.
      apply Qmult_le_compat_r; [|lra].
      rewrite <- Zle_Qle. apply round_half_even_mono.
      by apply Qdiv_le_mono.
    + assert (Hnormal : emin <= ilog2 y /\ binade emin y = ilog2 y)
        by (unfold binade in *; lia).
      destruct Hnormal as [Hnormal Hby].
      pose proof (round_nonneg_upper x Hpos) as Hupper.
      pose proof (round_nonneg_lower y Hpos' Hnormal) as Hlower.
      assert (Hpow : (pow2 (binade emin x + 1) <= pow2 (ilog2 y))%Q)
        by (apply pow2_le; lia).
      lra.
Qed.

Lemma round_nonneg_error x :
  (0 < x)%Q ->
  (x - ulp prec emin x / 2 <= round_nonneg prec emin x)%Q
  ∧ (round_nonneg prec emin x <= x + ulp prec emin x / 2)%Q.
Proof.
  intros Hx. rewrite round_nonneg_unfold by exact Hx.
  pose proof (ulp_pos x) as Hulp.
  destruct (round_half_even_error (x / ulp prec emin x)) as [Hlo Hhi].
  pose proof (Qdiv_mult_cancel x (ulp prec emin x) Hulp) as Hcancel.
  set (y := (x / ulp prec emin x)%Q) in *. set (u := ulp prec emin x) in *.
  set (n := inject_Z (round_half_even y)) in *.
  change (u / 2)%Q with (u * (1 # 2))%Q.
  split; nra.
Qed.

Lemma round_nonneg_exact x : dyadic prec emin x -> (round_nonneg prec emin x == x)%Q.
Proof.
  intros [Hzero|(m & c & Hm & Hc & Hx)].
  - by rewrite round_nonneg_zero.
  - assert (Hm1 : (0 < inject_Z m)%Q)
      by (unfold Qlt, inject_Z; cbn [Qnum Qden]; lia).
    assert (Hm2 : (inject_Z m < inject_Z (2 ^ prec))%Q)
      by (rewrite <- Zlt_Qlt; lia).
    pose proof (pow2_pos c) as Hc0.
    assert (Hpos : (0 < x)%Q) by (rewrite Hx; nra).
    destruct (ilog2_spec x Hpos) as [Hlo _].
    assert (Hlog : ilog2 x < prec + c).
    { apply pow2_lt_inv. rewrite pow2_add, (pow2_Z prec) by lia.
      nra. }
    set (k := c - (binade emin x - prec + 1)).
    assert (Hk : 0 <= k) by (unfold k, binade; lia).
    assert (Hulp : (ulp prec emin x == pow2 c / pow2 k)%Q).
    { unfold ulp. rewrite <- pow2_sub. unfold k.
      by replace (c - (c - (binade emin x - prec + 1)))
        with (binade emin x - prec + 1) by lia. }
    pose proof (pow2_pos k) as Hk0.
    assert (Hscaled : (x / ulp prec emin x == inject_Z (m * 2 ^ k))%Q).
    { rewrite Hulp, Hx, inject_Z_mult, <- (pow2_Z k) by lia. field. lra. }
    rewrite round_nonneg_unfold by exact Hpos.
    rewrite (round_half_even_proper _ _ Hscaled), round_half_even_Z.
    rewrite Hulp, Hx, inject_Z_mult, <- (pow2_Z k) by lia. field. lra.
Qed.

Lemma round_nonneg_dyadic x : (0 <= x)%Q -> dyadic prec emin (round_nonneg prec emin x).
Proof.
  intros Hx. destruct (Qeq_dec x 0) as [Hzero|Hnz].
  - left. by rewrite round_nonneg_zero.
  - assert (Hpos : (0 < x)%Q)
      by (destruct (Qlt_le_dec 0 x); [done|]; exfalso; apply Hnz; lra).
    pose proof (round_nonneg_nonneg x Hx) as Hnonneg.
    pose proof (round_nonneg_upper x Hpos) as Hupper.
    rewrite round_nonneg_unfold in * by exact Hpos.
    pose proof (ulp_pos x) as Hulp.
    set (n := round_half_even (x / ulp prec emin x)) in *.
    assert (Hk : 0 <= prec - 1 + 1) by lia.
    rewrite <- (unscale_binade x 1 Hk) in Hupper.
    replace (prec - 1 + 1) with prec in Hupper by lia.
    assert (Hn0 : 0 <= n).
    { rewrite Zle_Qle. change (inject_Z 0) with 0%Q. nra. }
    assert (Hn1 : n <= 2 ^ prec).
    { rewrite Zle_Qle. nra. }
    destruct (Z.eq_dec n 0) as [->|Hn0'].
    { left. change (inject_Z 0) with 0%Q. ring. }
    right. destruct (Z.eq_dec n (2 ^ prec)) as [->|Hn1'].
    + exists (2 ^ (prec - 1)), (binade emin x - prec + 1 + 1).
      split; [split; [apply Z.pow_pos_nonneg; lia|apply Z.pow_lt_mono_r; lia]|].
      split; [unfold binade; lia|].
      rewrite pow2_succ. unfold ulp.
      replace prec with (prec - 1 + 1) at 1 by lia.
      rewrite Z.pow_add_r, inject_Z_mult by lia.
      change (inject_Z (2 ^ 1)) with 2%Q. ring.
    + exists n, (binade emin x - prec + 1).
      split; [lia|]. split; [unfold binade; lia | reflexivity].
Qed.

Lemma round_nonneg_idem x :
  (0 <= x)%Q ->
  (round_nonneg prec emin (round_nonneg prec emin x)
   == round_nonneg prec emin x)%Q.
Proof. intros Hx. by apply round_nonneg_exact, round_nonneg_dyadic. Qed.

Lemma dyadic_double x : dyadic prec emin x -> dyadic prec emin (2 * x).
Proof.
  intros [Hzero|(m & c & Hm & Hc & Hx)].
  - left. rewrite Hzero. ring.
  - right. exists m, (c + 1). split; [exact Hm|]. split; [lia|].
    rewrite pow2_succ, Hx. ring.
Qed.

Lemma dyadic_proper x y : (x == y)%Q -> dyadic prec emin x -> dyadic prec emin y.
Proof.
  intros Heq [Hzero|(m & c & Hm & Hc & Hx)].
  - left. by rewrite <- Heq.
  - right. exists m, c. split; [exact Hm|]. split; [exact Hc|]. by rewrite <- Heq.
Qed.

Lemma dyadic_nonneg x : dyadic prec emin x -> (0 <= x)%Q.
Proof.
  intros [Hzero|(m & c & Hm & Hc & Hx)]; [lra|].
  assert (Hm1 : (0 < inject_Z m)%Q)
    by (unfold Qlt, inject_Z; cbn [Qnum Qden]; lia).
  pose proof (pow2_pos c). rewrite Hx. nra.
Qed.

(** ** Signed rounding *)

Lemma round_float_nonneg x :
  (0 <= x)%Q -> (round_float prec emin x == round_nonneg prec emin x)%Q.
Proof.
  intros Hx. unfold round_float. rewrite Qred_correct.
  apply Qle_bool_iff in Hx. by rewrite Hx.
Qed.

Lemma round_float_neg x :
  (x < 0)%Q -> (round_float prec emin x == - round_nonneg prec emin (- x))%Q.
Proof.
  intros Hx. unfold round_float. rewrite Qred_correct.
  destruct (Qle_bool 0 x) eqn:Hsign; [|reflexivity].
  apply Qle_bool_iff in Hsign. lra.
Qed.

Lemma round_float_proper x y :
  (x == y)%Q -> round_float prec emin x = round_float prec emin y.
Proof.
  intros Heq. unfold round_float. apply Qred_complete.
  destruct (Qle_bool 0 x) eqn:Hx.
  - assert (Hy : Qle_bool 0 y = true)
      by (apply Qle_bool_iff; rewrite <- Heq; by apply Qle_bool_iff).
    rewrite Hy. apply Qle_bool_iff in Hx.
    by rewrite (round_nonneg_proper x y Hx Heq).
  - assert (Hxneg : (x < 0)%Q).
    { apply Qnot_le_lt. intros Hle. apply Qle_bool_iff in Hle. congruence. }
    assert (Hy : Qle_bool 0 y = false).
    { destruct (Qle_bool 0 y) eqn:Hy; [|reflexivity].
      apply Qle_bool_iff in Hy. rewrite <- Heq in Hy. lra. }
    rewrite Hy.
    assert (Hopp : (- x == - y)%Q) by (by rewrite Heq).
    rewrite (round_nonneg_proper (- x) (- y)); [reflexivity | lra | exact Hopp].
Qed.

Lemma round_float_sign_nonneg x :
  (0 <= x)%Q -> (0 <= round_float prec emin x)%Q.
Proof.
  intros Hx. rewrite round_float_nonneg by exact Hx.
  by apply round_nonneg_nonneg.
Qed.

Lemma round_float_opp x :
  (round_float prec emin (- x) == - round_float prec emin x)%Q.
Proof.
  destruct (Qlt_le_dec 0 x) as [Hpos|Hle].
  - rewrite (round_float_neg (- x)), (round_float_nonneg x) by lra.
    rewrite (round_nonneg_proper (- - x) x); [reflexivity | lra | ring].
  - destruct (Qeq_dec x 0) as [Hzero|Hnz].
    + rewrite (round_float_nonneg (- x)), (round_float_nonneg x) by lra.
      rewrite !round_nonneg_zero; [reflexivity | exact Hzero | lra].
    + assert (Hneg : (x < 0)%Q)
        by (destruct (Qlt_le_dec x 0); [done|]; exfalso; apply Hnz; lra).
      rewrite (round_float_nonneg (- x)), (round_float_neg x) by lra. ring.
Qed.

Lemma round_float_sign_nonpos x :
  (x <= 0)%Q -> (round_float prec emin x <= 0)%Q.
Proof.
  intros Hx.
  pose proof (round_float_sign_nonneg (- x)) as Hopp.
  rewrite round_float_opp in Hopp. lra.
Qed.

Lemma round_float_mono x y :
  (x <= y)%Q -> (round_float prec emin x <= round_float prec emin y)%Q.
Proof.
  intros Hxy. destruct (Qlt_le_dec x 0) as [Hx|Hx], (Qlt_le_dec y 0) as [Hy|Hy].
  - rewrite (round_float_neg x), (round_float_neg y) by assumption.
    pose proof (round_nonneg_mono (- y) (- x)). lra.
  - pose proof (round_float_sign_nonpos x). pose proof (round_float_sign_nonneg y).
    lra.
  - lra.
  - rewrite (round_float_nonneg x), (round_float_nonneg y) by assumption.
    by apply round_nonneg_mono.
Qed.

(** The numbers of the format are the fixed points of the rounding. *)
Lemma round_float_exact x :
  dyadic prec emin (Qabs x) -> (round_float prec emin x == x)%Q.
Proof.
  intros Hd. destruct (Qlt_le_dec x 0) as [Hx|Hx].
  - rewrite round_float_neg by exact Hx.
    rewrite round_nonneg_exact; [ring|].
    apply (dyadic_proper (Qabs x)); [apply Qabs_neg; lra | exact Hd].
  - rewrite round_float_nonneg by exact Hx.
    apply round_nonneg_exact.
    apply (dyadic_proper (Qabs x)); [by apply Qabs_pos | exact Hd].
Qed.

Lemma round_float_dyadic x : dyadic prec emin (Qabs (round_float prec emin x)).
Proof.
  destruct (Qlt_le_dec x 0) as [Hx|Hx].
  - pose proof (round_nonneg_dyadic (- x)) as Hd.
    apply (dyadic_proper (round_nonneg prec emin (- x))); [|apply Hd; lra].
    rewrite round_float_neg, Qabs_opp by exact Hx.
    symmetry. apply Qabs_pos. apply round_nonneg_nonneg. lra.
  - apply (dyadic_proper (round_nonneg prec emin x));
      [|by apply round_nonneg_dyadic].
    rewrite round_float_nonneg by exact Hx.
    symmetry. apply Qabs_pos. by apply round_nonneg_nonneg.
Qed.

Lemma round_float_idem x :
  (round_float prec emin (round_float prec emin x)
   == round_float prec emin x)%Q.
Proof. apply round_float_exact, round_float_dyadic. Qed.

Lemma round_float_double x :
  (round_float prec emin x == x)%Q ->
  (round_float prec emin (2 * x) == 2 * x)%Q.
Proof.
  intros Hfix. apply round_float_exact.
  apply (dyadic_proper (2 * Qabs x)).
  - rewrite Qabs_Qmult. reflexivity.
  - apply dyadic_double.
    apply (dyadic_proper (Qabs (round_float prec emin x)));
      [by rewrite Hfix | apply round_float_dyadic].
Qed.

Lemma round_float_le x f :
  (round_float prec emin f == f)%Q -> (x <= f)%Q ->
  (round_float prec emin x <= f)%Q.
Proof. intros Hf Hle. rewrite <- Hf. by apply round_float_mono. Qed.

Lemma round_float_ge x f :
  (round_float prec emin f == f)%Q -> (f <= x)%Q ->
  (f <= round_float prec emin x)%Q.
Proof. intros Hf Hle. rewrite <- Hf. by apply round_float_mono. Qed.

Lemma round_float_error x :
  (0 < x)%Q ->
  (x - ulp prec emin x / 2 <= round_float prec emin x)%Q
  ∧ (round_float prec emin x <= x + ulp prec emin x / 2)%Q.
Proof.
  intros Hx. rewrite round_float_nonneg by lra. by apply round_nonneg_error.
Qed.

End Rounding.

(** ** binary32 *)

Lemma binary32_proper x y : (x == y)%Q -> binary32 x = binary32 y.
Proof. apply round_float_proper. Qed.

Lemma binary32_0 : binary32 0 = 0%Q.
Proof. reflexivity. Qed.

Lemma binary32_1 : binary32 1 = 1%Q.
Proof. reflexivity. Qed.

(** A multiple of 2^-23 in [0, 1) is a binary32 number. *)
Lemma binary32_unit_draw k :
  0 <= k < 2 ^ 23 -> (binary32 (k # 8388608) == k # 8388608)%Q.
Proof.
  intros Hk. apply round_float_exact; [lia|].
  apply (dyadic_proper 24 (-126) (k # 8388608)).
  { symmetry. apply Qabs_pos. unfold Qle; simpl. lia. }
  destruct (Z.eq_dec k 0) as [->|Hnz]; [by left|].
  right. exists k, (-23). split; [lia|]. split; [lia|].
  change (pow2 (-23)) with (1 # 8388608)%Q.
  unfold Qeq, Qmult, inject_Z; simpl. lia.
Qed.

Lemma binary32_unit_interval x :
  (0 <= x)%Q -> (x <= 1)%Q -> (0 <= binary32 x)%Q ∧ (binary32 x <= 1)%Q.
Proof.
  intros H0 H1. split.
  - by apply round_float_sign_nonneg.
  - apply round_float_le; [lia | | exact H1].
    change (binary32 1 == 1)%Q. by rewrite binary32_1.
Qed.

(** On [0, 1] the rounding error is at most 2^-25. *)
Lemma binary32_unit_error x :
  (0 <= x)%Q -> (x <= 1)%Q ->
  (x - (1 # 33554432) <= binary32 x)%Q ∧ (binary32 x <= x + (1 # 33554432))%Q.
Proof.
  intros H0 H1.
  destruct (Qeq_dec x 0) as [Hzero|Hnz].
  { rewrite (binary32_proper x 0 Hzero), binary32_0. split; lra. }
  destruct (Qeq_dec x 1) as [Hone|Hnone].
  { rewrite (binary32_proper x 1 Hone), binary32_1. split; lra. }
  assert (Hpos : (0 < x)%Q)
    by (destruct (Qlt_le_dec 0 x); [done|]; exfalso; apply Hnz; lra).
  assert (Hlt : (x < 1)%Q)
    by (destruct (Qlt_le_dec x 1); [done|]; exfalso; apply Hnone; lra).
  destruct (round_float_error 24 (-126) x Hpos) as [Hlo Hhi].
  destruct (ilog2_spec x Hpos) as [Hlog _].
  assert (Hneg : ilog2 x < 0) by (apply pow2_lt_inv; change (pow2 0) with 1%Q; lra).
  assert (Hulp : (ulp 24 (-126) x <= pow2 (-24))%Q)
    by (apply pow2_le; unfold binade; lia).
  change (pow2 (-24)) with (1 # 16777216)%Q in Hulp.
  fold binary32 in Hlo, Hhi.
  set (u := ulp 24 (-126) x) in *.
  change (u / 2)%Q with (u * (1 # 2))%Q in Hlo, Hhi.
  split; lra.
Qed.

Lemma binary32_nonneg x : (0 <= x)%Q -> (0 <= binary32 x)%Q.
Proof. apply round_float_sign_nonneg. Qed.

Lemma binary32_nonpos x : (x <= 0)%Q -> (binary32 x <= 0)%Q.
Proof. apply round_float_sign_nonpos. Qed.

Lemma binary64_nonneg x : (0 <= x)%Q -> (0 <= binary64 x)%Q.
Proof. apply round_float_sign_nonneg. Qed.

Lemma binary64_nonpos x : (x <= 0)%Q -> (binary64 x <= 0)%Q.
Proof. apply round_float_sign_nonpos. Qed.

Lemma binary32_le x f : (binary32 f == f)%Q -> (x <= f)%Q -> (binary32 x <= f)%Q.
Proof. apply round_float_le. lia. Qed.

Lemma binary32_ge x f : (binary32 f == f)%Q -> (f <= x)%Q -> (f <= binary32 x)%Q.
Proof. apply round_float_ge. lia. Qed.

Lemma binary32_double x : (binary32 x == x)%Q -> (binary32 (2 * x) == 2 * x)%Q.
Proof. apply round_float_double. lia. Qed.

Lemma binary32_idem x : (binary32 (binary32 x) == binary32 x)%Q.
Proof. apply round_float_idem. lia. Qed.

Lemma binary32_opp x : (binary32 (- x) == - binary32 x)%Q.
Proof. apply round_float_opp. Qed.

Lemma binary64_proper x y : (x == y)%Q -> binary64 x = binary64 y.
Proof. apply round_float_proper. Qed.

(** A format with more bits of significand and a lower least exponent holds
    the numbers of the smaller one. *)
Lemma dyadic_weaken prec emin prec' emin' x :
  0 <= prec <= prec' -> emin' - prec' <= emin - prec ->
  dyadic prec emin x -> dyadic prec' emin' x.
Proof.
  intros Hprec Hemin [Hzero|(m & c & Hm & Hc & Hx)]; [by left|].
  right. exists m, c. split; [|split; [lia | exact Hx]].
  pose proof (Z.pow_le_mono_r 2 prec prec'). lia.
Qed.

Lemma binary32_is_binary64 x : (binary32 x == x)%Q -> (binary64 x == x)%Q.
Proof.
  intros Hfix. apply round_float_exact; [lia|].
  apply (dyadic_weaken 24 (-126)); [lia | lia |].
  apply (dyadic_proper 24 (-126) (Qabs (binary32 x)));
    [by rewrite Hfix | apply round_float_dyadic; lia].
Qed.




(** The inversion [1 - x] and back, each rounded, moves a pixel of [0, 1] by
    at most 2^-24. *)
Lemma binary32_invert_twice x :
  (0 <= x)%Q -> (x <= 1)%Q ->
  (Qabs (binary32 (1 - binary32 (1 - x)) - x) <= 1 # 16777216)%Q.
Proof.
  intros H0 H1.
  destruct (binary32_unit_error (1 - x)) as [Hlo Hhi]; [lra | lra |].
  destruct (binary32_unit_interval (1 - x)) as [Hy0 Hy1]; [lra | lra |].
  set (y := binary32 (1 - x)) in *.
  destruct (binary32_unit_error (1 - y)) as [Hlo' Hhi']; [lra | lra |].
  set (z := binary32 (1 - y)) in *.
  apply Qabs_Qle_condition. split; lra.
Qed.

(** ** The random kernel *)

Lemma uint32_to_float_bits x : 0 <= Z.land x 8388607 < 2 ^ 23.
Proof.
  change 8388607 with (Z.ones 23). rewrite Z.land_ones by lia.
  apply Z.mod_pos_bound. lia.
Qed.

Lemma uint32_to_float_range x :
  (0 <= uint32_to_float x)%Q ∧ (uint32_to_float x < 1)%Q.
Proof.
  pose proof (uint32_to_float_bits x) as Hbits.
  unfold uint32_to_float, Qle, Qlt; simpl. lia.
Qed.

Lemma uint32_to_float_exact x :
  (binary32 (uint32_to_float x) == uint32_to_float x)%Q.
Proof. apply binary32_unit_draw, uint32_to_float_bits. Qed.

(** ** Slices *)

Section Slices.
Context {A : Type}.
Implicit Types xs : list A.

Lemma py_slice_from_1 xs : py_slice (Some 1) None xs = drop 1 xs.
Proof.
  unfold py_slice, slice_bound; simpl.
  destruct xs as [|x xs]; [reflexivity|].
  rewrite Z.min_l by (simpl length; lia).
  apply take_ge. rewrite length_drop. simpl length. lia.
Qed.

Lemma py_slice_last xs :
  py_slice (Some (-1)) None xs = drop (length xs - 1) xs.
Proof.
  unfold py_slice, slice_bound; simpl.
  destruct xs as [|x xs]; [reflexivity|].
  rewrite Z.max_r by (simpl length; lia).
  replace (Z.to_nat (-1 + Z.of_nat (length (x :: xs))))
    with (length (x :: xs) - 1)%nat by (simpl length; lia).
  apply take_ge. rewrite length_drop. simpl length. lia.
Qed.

Lemma py_slice_to_1 xs : py_slice None (Some 1) xs = take 1 xs.
Proof.
  unfold py_slice, slice_bound; simpl.
  destruct xs as [|x xs]; [reflexivity|].
  rewrite Z.min_l by (simpl length; lia). reflexivity.
Qed.

Lemma py_slice_init xs :
  py_slice None (Some (-1)) xs = take (length xs - 1) xs.
Proof.
  unfold py_slice, slice_bound; simpl.
  destruct xs as [|x xs]; [reflexivity|].
  rewrite Z.max_r by (simpl length; lia).
  rewrite drop_0. f_equal. simpl length. lia.
Qed.

End Slices.

(** ** Shifts, row by row *)

Lemma zip_with_app_map {A} (f g : list A -> list A) (p : list (list A)) :
  zip_with app (map f p) (map g p) = map (fun row => f row ++ g row) p.
Proof. induction p as [|row p IH]; simpl; [reflexivity | by rewrite IH]. Qed.

Lemma shift_left_rows patch : _shift_left patch = map shift_left_row patch.
Proof.
  unfold _shift_left, concat_axis1, slice_columns.
  rewrite zip_with_app_map. apply map_ext. intros row.
  by rewrite py_slice_from_1, py_slice_last.
Qed.

Lemma shift_right_rows patch : _shift_right patch = map shift_right_row patch.
Proof.
  unfold _shift_right, concat_axis1, slice_columns.
  rewrite zip_with_app_map. apply map_ext. intros row.
  by rewrite py_slice_to_1, py_slice_init.
Qed.

Lemma shift_left_row_length row : length (shift_left_row row) = length row.
Proof.
  unfold shift_left_row. rewrite length_app, !length_drop.
  destruct row; simpl; lia.
Qed.

Lemma shift_right_row_length row : length (shift_right_row row) = length row.
Proof.
  unfold shift_right_row. rewrite length_app, !length_take.
  destruct row; simpl; lia.
Qed.

Lemma shift_left_row_lookup row j :
  (j + 1 < length row)%nat -> shift_left_row row !! j = row !! (j + 1)%nat.
Proof.
  intros Hj. unfold shift_left_row.
  rewrite lookup_app_l by (rewrite length_drop; lia).
  rewrite lookup_drop. f_equal. lia.
Qed.

Lemma shift_left_row_last row :
  (1 <= length row)%nat ->
  shift_left_row row !! (length row - 1)%nat = row !! (length row - 1)%nat.
Proof.
  intros Hlen. unfold shift_left_row.
  rewrite lookup_app_r by (rewrite length_drop; lia).
  rewrite lookup_drop, length_drop. f_equal. lia.
Qed.

Lemma shift_right_row_lookup row j :
  (1 <= j < length row)%nat -> shift_right_row row !! j = row !! (j - 1)%nat.
Proof.
  intros Hj. unfold shift_right_row.
  rewrite lookup_app_r by (rewrite length_take; lia).
  rewrite length_take, Nat.min_l by lia.
  apply lookup_take_lt. lia.
Qed.

Lemma shift_right_row_first row :
  (1 <= length row)%nat -> shift_right_row row !! 0%nat = row !! 0%nat.
Proof.
  intros Hlen. unfold shift_right_row.
  rewrite lookup_app_l by (rewrite length_take; lia).
  apply lookup_take_lt. lia.
Qed.

Lemma column_map_rows (f : list Q -> list Q) (W j k : nat) patch :
  Forall (fun row => length row = W) patch ->
  (forall row, length row = W -> f row !! j = row !! k) ->
  column (map f patch) j = column patch k.
Proof.
  intros Hrows Hf. unfold column. rewrite map_map.
  induction Hrows as [|row p Hrow _ IH]; simpl; [reflexivity|].
  by rewrite Hf, IH.
Qed.

Lemma has_shape_map_rows (f : list Q -> list Q) (H W : nat) patch :
  (forall row, length (f row) = length row) ->
  has_shape H W patch -> has_shape H W (map f patch).
Proof.
  intros Hf [Hlen Hrows]. split; [by rewrite length_map|].
  rewrite Forall_map. eapply Forall_impl; [exact Hrows|].
  intros row Hrow; simpl. by rewrite Hf.
Qed.

(** ** Claim C2 *)

(** C2. On a patch of shape (H, W) with W >= 1 both one-pixel shifts keep the
    shape (H, W) and replicate the edge column: columns 0..W-2 of the
    shift-left output are columns 1..W-1 of the input and its column W-1 is
    the input's column W-1; columns 1..W-1 of the shift-right output are
    columns 0..W-2 of the input and its column 0 is the input's column 0. *)
Theorem shift_preserves_shape_and_replicates_edge (H W : nat) (patch : Patch) :
  has_shape H W patch ->
  (1 <= W)%nat ->
  has_shape H W (_shift_left patch)
  ∧ (forall j, (j + 1 < W)%nat ->
       column (_shift_left patch) j = column patch (j + 1))
  ∧ column (_shift_left patch) (W - 1) = column patch (W - 1)
  ∧ has_shape H W (_shift_right patch)
  ∧ (forall j, (1 <= j < W)%nat ->
       column (_shift_right patch) j = column patch (j - 1))
  ∧ column (_shift_right patch) 0 = column patch 0.
Proof.
  intros Hshape HW. pose proof Hshape as [_ Hrows].
  rewrite shift_left_rows, shift_right_rows.
  split; [|split; [|split; [|split; [|split]]]].
  - by apply has_shape_map_rows; [apply shift_left_row_length | ].
  - intros j Hj. apply (column_map_rows _ W); [exact Hrows|].
    intros row Hrow. apply shift_left_row_lookup. lia.
  - apply (column_map_rows _ W); [exact Hrows|].
    intros row Hrow. rewrite <- Hrow. apply shift_left_row_last. lia.
  - by apply has_shape_map_rows; [apply shift_right_row_length | ].
  - intros j Hj. apply (column_map_rows _ W); [exact Hrows|].
    intros row Hrow. apply shift_right_row_lookup. lia.
  - apply (column_map_rows _ W); [exact Hrows|].
    intros row Hrow. apply shift_right_row_first. lia.
Qed.

Lemma shift_preserves_shape_and_replicates_edge_witness :
  has_shape 2 3 sample_patch
  ∧ (1 <= 3)%nat
  ∧ has_shape 2 3 (_shift_left sample_patch)
  ∧ column (_shift_left sample_patch) 2 = column sample_patch 2
  ∧ column (_shift_right sample_patch) 0 = column sample_patch 0.
Proof.
  assert (Hshape : has_shape 2 3 sample_patch)
    by (split; [reflexivity | repeat constructor]).
  assert (HW : (1 <= 3)%nat) by lia.
  pose proof (shift_preserves_shape_and_replicates_edge 2 3 sample_patch Hshape HW)
    as (Hl & _ & Hlast & _ & _ & Hfirst).
  exact (conj Hshape (conj HW (conj Hl (conj Hlast Hfirst)))).
Defined.

(** ** The shift augmentation *)

Lemma float_lt_true x y : float_lt x y = true -> (x < y)%Q.
Proof.
  unfold float_lt. intros Hlt. apply Qnot_le_lt. intros Hle.
  apply Qle_bool_iff in Hle. rewrite Hle in Hlt. discriminate.
Qed.

Lemma float_lt_false x y : float_lt x y = false -> (y <= x)%Q.
Proof.
  unfold float_lt. intros Hlt. apply Qle_bool_iff.
  destruct (Qle_bool y x); [reflexivity | discriminate].
Qed.

Lemma float_lt_of_lt x y : (x < y)%Q -> float_lt x y = true.
Proof.
  intros Hlt. destruct (float_lt x y) eqn:Hless; [reflexivity|].
  apply float_lt_false in Hless. by apply Qle_not_lt in Hless.
Qed.

Lemma float_lt_of_le x y : (y <= x)%Q -> float_lt x y = false.
Proof.
  intros Hle. destruct (float_lt x y) eqn:Hless; [|reflexivity].
  apply float_lt_true in Hless. by apply Qle_not_lt in Hle.
Qed.

(** The comparison with a Python float is the comparison with its rounding
    to float32. *)
Lemma less_true x y : less x y = true -> (x < binary32 y)%Q.
Proof. apply float_lt_true. Qed.

Lemma less_false x y : less x y = false -> (binary32 y <= x)%Q.
Proof. apply float_lt_false. Qed.

Lemma less_of_lt x y : (x < binary32 y)%Q -> less x y = true.
Proof. apply float_lt_of_lt. Qed.

Lemma less_of_le x y : (binary32 y <= x)%Q -> less x y = false.
Proof. apply float_lt_of_le. Qed.

Lemma py_min_is_min a b : (py_min a b == Qmin a b)%Q.
Proof.
  unfold py_min. destruct (float_lt b a) eqn:Hlt.
  - apply float_lt_true in Hlt. symmetry. apply Q.min_r. by apply Qlt_le_weak.
  - apply float_lt_false in Hlt. symmetry. by apply Q.min_l.
Qed.

(** With the default bounds 0 and 1 the draw is the kernel's number. *)
Lemma uniform_value_unit x :
  (uniform_value 0 1 (uint32_to_float x) == uint32_to_float x)%Q.
Proof.
  unfold uniform_value.
  change (binary32 (binary32 1 - binary32 0)) with 1%Q.
  change (binary32 0) with 0%Q.
  rewrite (binary32_proper (uint32_to_float x * 1) (uint32_to_float x))
    by ring.
  rewrite (binary32_proper (binary32 (uint32_to_float x) + 0)
                           (uint32_to_float x))
    by (rewrite uint32_to_float_exact; ring).
  apply uint32_to_float_exact.
Qed.

Lemma uniform_value_unit_range x :
  (0 <= uniform_value 0 1 (uint32_to_float x))%Q
  ∧ (uniform_value 0 1 (uint32_to_float x) < 1)%Q.
Proof. rewrite uniform_value_unit. apply uint32_to_float_range. Qed.

(** One call: one draw, no other effect, and the value [tf.cond] picks. *)
Lemma augment_shift_run patch w :
  _augment_shift patch w =
  (Ok (let rand := uniform_value 0 1 (uint32_to_float (rng w (rng_draws w))) in
       let shift_prob := py_min 1 (augmentation_x_shift_probability (FLAGS w)) in
       if less rand (binary64 (shift_prob / 2)) then _shift_left patch
       else if less rand shift_prob then _shift_right patch
       else patch),
   advance_rng w).
Proof.
  unfold _augment_shift, tf_cond. by unfold_monad.
Qed.

(** Whatever the two thresholds are, a draw selects exactly one branch. *)
Lemma branch_selected_unique r half full :
  ∃ b, branch_selected b r half full
       ∧ forall b', branch_selected b' r half full -> b' = b.
Proof.
  destruct (Qlt_le_dec r half) as [Hleft|Hleft];
    [|destruct (Qlt_le_dec r full) as [Hright|Hright]].
  - exists shift_left. split; [exact Hleft|].
    intros [] Hb; simpl in Hb; [reflexivity | |].
    + destruct Hb as [Hb _]. by apply Qle_not_lt in Hb.
    + by destruct Hb as [Hb _].
  - exists shift_right. split; [by split|].
    intros [] Hb; simpl in Hb; [ | reflexivity | ].
    + by apply Qle_not_lt in Hleft.
    + destruct Hb as [_ Hb]. by destruct Hb.
  - exists identity. split.
    + split; [by apply Qle_not_lt|]. intros [_ Hlt].
      by apply Qle_not_lt in Hright.
    + intros [] Hb; simpl in Hb; [ | | reflexivity].
      * by apply Qle_not_lt in Hleft.
      * destruct Hb as [_ Hb]. by apply Qle_not_lt in Hright.
Qed.

(** ** Claim C1 *)

(** C1, as stated, fails: the branch is not decided by comparing the draw
    with p/2 and p, but with their roundings to float32. With a shift
    probability of 1/2 + 2^-30 and a draw of 1/4 the draw is below p/2, for
    which the claim has the left shift, and the augmentation shifts right:
    the threshold p/2 = 1/4 + 2^-31 is rounded to 1/4. *)
Lemma augment_shift_compares_rounded_thresholds :
  let w := with_rng (fun _ => 2097152)
                    (with_shift_probability (536870913 # 1073741824)) in
  let r := uniform_value 0 1 (uint32_to_float (rng w (rng_draws w))) in
  let p := py_min 1 (augmentation_x_shift_probability (FLAGS w)) in
  (r == 1 # 4)%Q
  ∧ branch_selected shift_left r (p / 2) p
  ∧ (_augment_shift sample_patch w).1 = Ok (_shift_right sample_patch)
  ∧ _shift_right sample_patch ≠ _shift_left sample_patch.
Proof.
  split; [reflexivity|]. split; [reflexivity|].
  split; [vm_compute; reflexivity | vm_compute; discriminate].
Qed.

(** C1, amended. One call of the shift augmentation consumes exactly one
    draw of the uniform source, giving r in [0,1). With p = min(1, p_shift)
    it compares r with p/2 and with p, each rounded to float32 (the draw is a
    float32 tensor): it returns the left shift when r < float32(p/2), the
    right shift when float32(p/2) <= r < float32(p), and the input patch
    otherwise; exactly one of the three branches is selected. When p/2 is a
    float32 number, as for the default 0.5, the thresholds are p/2 and p
    themselves. *)
Theorem augment_shift_branches (patch : Patch) (w : World) :
  let p_shift := augmentation_x_shift_probability (FLAGS w) in
  let r := uniform_value 0 1 (uint32_to_float (rng w (rng_draws w))) in
  let p := py_min 1 p_shift in
  let half := binary32 (binary64 (p / 2)) in
  let full := binary32 p in
  (0 <= r)%Q ∧ (r < 1)%Q
  ∧ (p == Qmin 1 p_shift)%Q
  ∧ ((binary32 (p / 2) == p / 2)%Q -> (half == p / 2)%Q ∧ (full == p)%Q)
  ∧ ∃ out,
      _augment_shift patch w = (Ok out, advance_rng w)
      ∧ rng_draws (advance_rng w) = S (rng_draws w)
      ∧ (forall b, branch_selected b r half full -> out = branch_output b patch)
      ∧ ∃ b, branch_selected b r half full
             ∧ forall b', branch_selected b' r half full -> b' = b.
Proof.
  intros p_shift r p half full.
  destruct (uniform_value_unit_range (rng w (rng_draws w))) as [Hr0 Hr1].
  split; [exact Hr0|]. split; [exact Hr1|].
  split; [apply py_min_is_min|].
  split.
  { intros Hfix. split.
    - unfold half.
      rewrite (binary32_proper _ _ (binary32_is_binary64 _ Hfix)). exact Hfix.
    - unfold full. rewrite (binary32_proper p (2 * (p / 2))) by (field).
      rewrite (binary32_double _ Hfix). field. }
  eexists. split; [apply augment_shift_run|].
  split; [reflexivity|].
  split; [|apply branch_selected_unique].
  fold p_shift. fold r. fold p. cbv zeta.
  destruct (less r (binary64 (p / 2))) eqn:Hleft;
    [|destruct (less r p) eqn:Hright].
  - apply less_true in Hleft. fold half in Hleft.
    intros [] Hb; simpl in Hb; [reflexivity | |].
    + destruct Hb as [Hb _]. by apply Qle_not_lt in Hb.
    + by destruct Hb as [Hb _].
  - apply less_false in Hleft. apply less_true in Hright.
    fold half in Hleft. fold full in Hright.
    intros [] Hb; simpl in Hb; [ | reflexivity | ].
    + by apply Qle_not_lt in Hleft.
    + destruct Hb as [_ Hb]. by destruct Hb.
  - apply less_false in Hleft. apply less_false in Hright.
    fold half in Hleft. fold full in Hright.
    intros [] Hb; simpl in Hb; [ | | reflexivity].
    + by apply Qle_not_lt in Hleft.
    + destruct Hb as [_ Hb]. by apply Qle_not_lt in Hright.
Qed.

Lemma augment_shift_branches_witness :
  (binary32 ((1 # 2) / 2) == (1 # 2) / 2)%Q
  ∧ ∃ out,
      _augment_shift sample_patch (sample_world false no_files)
      = (Ok out, advance_rng (sample_world false no_files))
      ∧ out = _shift_left sample_patch.
Proof.
  assert (Hfix : (binary32 ((1 # 2) / 2) == (1 # 2) / 2)%Q) by reflexivity.
  split; [exact Hfix|].
  destruct (augment_shift_branches sample_patch (sample_world false no_files))
    as (_ & _ & _ & Hhalf & out & Hrun & _ & Hsel & _).
  exists out. split; [exact Hrun|].
  apply (Hsel shift_left). simpl. destruct (Hhalf Hfix) as [-> _]. reflexivity.
Defined.

(** ** The rotation augmentation and the composition *)

(** The rotation op computes the pixels of every image that has rows and
    columns. *)
Lemma rotate_ok bilinear_rotation (H W : nat) images angles :
  has_shape H W images -> (0 < H)%nat -> (0 < W)%nat ->
  rotate bilinear_rotation images angles
  = Ok (bilinear_rotation images angles).
Proof.
  intros [Hlen Hrows] HH HW.
  destruct images as [|row images]; [simpl in Hlen; lia|].
  apply Forall_cons in Hrows as [Hrow _].
  destruct row; [simpl in Hrow; lia | reflexivity].
Qed.

Lemma rotate_empty bilinear_rotation (H W : nat) images angles :
  has_shape H W images -> H = 0%nat ∨ W = 0%nat ->
  rotate bilinear_rotation images angles = Raise InvalidArgumentError.
Proof.
  intros [Hlen Hrows] Hzero.
  destruct images as [|row images]; [reflexivity|].
  apply Forall_cons in Hrows as [Hrow _].
  destruct row; [reflexivity|]. simpl in *. lia.
Qed.

(** One call: one draw, whatever the flag and whatever the rotation op
    answers, and the inverted rotation of the inverted patch. *)
Lemma augment_rotation_run bilinear_rotation patch w :
  _augment_rotation bilinear_rotation patch w =
  (match rotate bilinear_rotation (one_minus patch)
           (let max_rotation_radians :=
              math_radians (augmentation_max_rotation_degrees (FLAGS w)) in
            uniform_value (- max_rotation_radians) max_rotation_radians
                          (uint32_to_float (rng w (rng_draws w)))) with
   | Ok rotated => Ok (one_minus rotated)
   | Raise e => Raise e
   end,
   advance_rng w).
Proof.
  unfold _augment_rotation, random_uniform. unfold_binds. cbv zeta.
  by destruct (rotate _ _ _).
Qed.

Lemma math_radians_nonneg degrees :
  (0 <= degrees)%Q -> (0 <= math_radians degrees)%Q.
Proof.
  intros Hd. unfold math_radians. apply binary64_nonneg.
  apply Qmult_le_0_compat; [exact Hd|]. apply binary64_nonneg. discriminate.
Qed.

Lemma math_radians_zero degrees :
  (degrees == 0)%Q -> math_radians degrees = 0%Q.
Proof.
  intros Hzero. unfold math_radians.
  rewrite (binary64_proper (degrees * binary64 (math_pi / 180)) 0);
    [reflexivity|].
  rewrite Hzero. ring.
Qed.

(** The angle lies within the bound, which is the float32 value of the
    configured one. *)
Lemma uniform_value_symmetric m u :
  (0 <= m)%Q -> (0 <= u)%Q -> (u <= 1)%Q ->
  (- binary32 m <= uniform_value (- m) m u)%Q
  ∧ (uniform_value (- m) m u <= binary32 m)%Q.
Proof.
  intros Hm Hu0 Hu1. unfold uniform_value.
  pose proof (binary32_opp m) as Hopp.
  pose proof (binary32_idem m) as Hidem.
  pose proof (binary32_nonneg m Hm) as Hmx.
  pose proof (binary32_double _ Hidem) as Hdouble.
  set (mx := binary32 m) in *. set (mn := binary32 (- m)) in *.
  assert (Hdiff : (binary32 (mx - mn) == 2 * mx)%Q).
  { rewrite (binary32_proper (mx - mn) (2 * mx)) by lra. exact Hdouble. }
  set (diff := binary32 (mx - mn)) in *.
  assert (Hp0 : (0 <= binary32 (u * diff))%Q) by (apply binary32_nonneg; nra).
  assert (Hp1 : (binary32 (u * diff) <= 2 * mx)%Q)
    by (apply binary32_le; [exact Hdouble | nra]).
  set (prod := binary32 (u * diff)) in *.
  assert (Hneg : (binary32 (- mx) == - mx)%Q)
    by (rewrite binary32_opp, Hidem; reflexivity).
  split.
  - apply binary32_ge; [exact Hneg | lra].
  - apply binary32_le; [exact Hidem | lra].
Qed.

(** With a bound of zero the angle is zero, whatever the draw. *)
Lemma uniform_value_zero u : uniform_value (- 0) 0 u = 0%Q.
Proof.
  unfold uniform_value.
  change (binary32 (- 0)) with 0%Q. change (binary32 0) with 0%Q.
  change (binary32 (0 - 0)) with 0%Q.
  rewrite (binary32_proper (u * 0) 0) by ring. reflexivity.
Qed.

(** The inversions keep the shape, and undo each other on pixels of [0, 1]
    up to the two roundings. *)
Lemma one_minus_has_shape H W patch :
  has_shape H W patch -> has_shape H W (one_minus patch).
Proof.
  intros Hshape. apply has_shape_map_rows; [|exact Hshape].
  intros row. apply length_map.
Qed.

Lemma one_minus_twice_close patch :
  unit_pixels patch ->
  close (1 # 16777216) (one_minus (one_minus patch)) patch.
Proof.
  unfold unit_pixels, close, one_minus.
  induction 1 as [|row p Hrow _ IH]; simpl; constructor; [|exact IH].
  induction Hrow as [|x xs [Hx0 Hx1] _ IHrow]; simpl; constructor;
    [by apply binary32_invert_twice | exact IHrow].
Qed.

(** ** Claim C4 *)

(** C4, as stated, fails: the angle is not confined to the flag converted to
    radians, but to that bound rounded to float32, which can be the larger
    one. With a flag of 45 degrees and a random word of 0 the rotation op is
    called with the angle -float32(radians(45)), which lies below
    -radians(45). *)
Lemma augment_rotation_angle_exceeds_radians :
  let w := with_max_rotation_degrees 45 in
  let theta_max := math_radians (augmentation_max_rotation_degrees (FLAGS w)) in
  let theta := uniform_value (- theta_max) theta_max
                             (uint32_to_float (rng w (rng_draws w))) in
  (forall (bilinear_rotation : Patch -> Q -> Patch) (patch : Patch),
     _augment_rotation bilinear_rotation patch w
     = (match rotate bilinear_rotation (one_minus patch) theta with
        | Ok rotated => Ok (one_minus rotated)
        | Raise e => Raise e
        end,
        advance_rng w))
  ∧ (theta < - theta_max)%Q.
Proof.
  split; [intros; apply augment_rotation_run | vm_compute; reflexivity].
Qed.

(** C4, amended. One call of the rotation augmentation consumes exactly one
    draw, whatever the flag, and turns it into an angle theta; it returns
    1 - rotate(1 - patch, theta), the inversions being float32 subtractions,
    or the error of the rotation op. For a flag between 0 and 360 degrees
    theta lies in [-theta_max, theta_max], theta_max being the flag converted
    to radians and then rounded to float32. With the flag at 0 the draw is
    still consumed and theta is 0; if the rotation op returns the image it is
    given at angle 0, a patch of shape (H, W) with H, W positive and pixels
    in [0, 1] comes back with the same shape and each pixel within 2^-24 of
    the input's, the tolerance of the two inversions. *)
Theorem augment_rotation_inverts_around_rotation
    (bilinear_rotation : Patch -> Q -> Patch) (patch : Patch) (w : World) :
  let degrees := augmentation_max_rotation_degrees (FLAGS w) in
  let theta_max := binary32 (math_radians degrees) in
  let theta := uniform_value (- math_radians degrees) (math_radians degrees)
                             (uint32_to_float (rng w (rng_draws w))) in
  _augment_rotation bilinear_rotation patch w
  = (match rotate bilinear_rotation (one_minus patch) theta with
     | Ok rotated => Ok (one_minus rotated)
     | Raise e => Raise e
     end,
     advance_rng w)
  ∧ rng_draws (advance_rng w) = S (rng_draws w)
  ∧ ((0 <= degrees)%Q -> (degrees <= 360)%Q ->
     (- theta_max <= theta)%Q ∧ (theta <= theta_max)%Q)
  ∧ ((degrees == 0)%Q ->
     theta = 0%Q
     ∧ forall H W : nat,
         (forall images angles,
            (angles == 0)%Q -> bilinear_rotation images angles = images) ->
         has_shape H W patch -> (0 < H)%nat -> (0 < W)%nat ->
         unit_pixels patch ->
         ∃ out,
           _augment_rotation bilinear_rotation patch w = (Ok out, advance_rng w)
           ∧ has_shape H W out
           ∧ close (1 # 16777216) out patch).
Proof.
  intros degrees theta_max theta.
  split; [apply augment_rotation_run|]. split; [reflexivity|]. split.
  - intros Hd _.
    destruct (uint32_to_float_range (rng w (rng_draws w))) as [Hu0 Hu1].
    apply uniform_value_symmetric;
      [by apply math_radians_nonneg | exact Hu0 | by apply Qlt_le_weak].
  - intros Hzero.
    assert (Htheta : theta = 0%Q).
    { unfold theta. rewrite (math_radians_zero degrees Hzero).
      apply uniform_value_zero. }
    split; [exact Htheta|].
    intros H W Hidentity Hshape HH HW Hpixels.
    exists (one_minus (one_minus patch)).
    split; [|split].
    + rewrite augment_rotation_run. cbv zeta. fold degrees. fold theta.
      rewrite (rotate_ok _ H W) by (by try apply one_minus_has_shape).
      rewrite Hidentity by (by rewrite Htheta). reflexivity.
    + by do 2 apply one_minus_has_shape.
    + by apply one_minus_twice_close.
Qed.

Lemma augment_rotation_inverts_around_rotation_witness :
  (augmentation_max_rotation_degrees
     (FLAGS (with_shift_probability (1 # 2))) == 0)%Q
  ∧ (forall (images : Patch) (angles : Q),
       (angles == 0)%Q -> (fun (q : Patch) (_ : Q) => q) images angles = images)
  ∧ has_shape 2 3 sample_patch
  ∧ unit_pixels sample_patch
  ∧ ∃ out,
      _augment_rotation (fun q _ => q) sample_patch
                        (with_shift_probability (1 # 2))
      = (Ok out, advance_rng (with_shift_probability (1 # 2)))
      ∧ has_shape 2 3 out
      ∧ close (1 # 16777216) out sample_patch.
Proof.
  assert (Hzero : (augmentation_max_rotation_degrees
                     (FLAGS (with_shift_probability (1 # 2))) == 0)%Q)
    by reflexivity.
  assert (Hidentity : forall (images : Patch) (angles : Q),
            (angles == 0)%Q -> (fun (q : Patch) (_ : Q) => q) images angles = images)
    by (intros images angles _; reflexivity).
  assert (Hshape : has_shape 2 3 sample_patch)
    by (split; [reflexivity | repeat constructor]).
  assert (Hpixels : unit_pixels sample_patch)
    by (repeat constructor; discriminate).
  destruct (augment_rotation_inverts_around_rotation
              (fun q _ => q) sample_patch (with_shift_probability (1 # 2)))
    as (_ & _ & _ & Hno_rotation).
  destruct (Hno_rotation Hzero) as [_ Hsame].
  exact (conj Hzero (conj Hidentity (conj Hshape (conj Hpixels
           (Hsame 2%nat 3%nat Hidentity Hshape ltac:(lia) ltac:(lia) Hpixels))))).
Defined.

(** The bind of [_augment], spelled out. *)
Lemma augment_bind bilinear_rotation patch w :
  _augment bilinear_rotation patch w =
  match _augment_shift patch w with
  | (Ok shifted, w') => _augment_rotation bilinear_rotation shifted w'
  | (Raise e, w') => (Raise e, w')
  end.
Proof. reflexivity. Qed.

(** ** Claim C6 *)

(** C6. The full augmentation is the shift followed by the rotation: the
    first draw decides the shift, the second the angle, and the result of
    _augment is _augment_rotation applied to the result of _augment_shift. *)
Theorem augment_is_shift_then_rotation
    (bilinear_rotation : Patch -> Q -> Patch) (patch : Patch) (w : World) :
  ∃ shifted,
    _augment_shift patch w = (Ok shifted, advance_rng w)
    ∧ _augment bilinear_rotation patch w
      = _augment_rotation bilinear_rotation shifted (advance_rng w)
    ∧ _augment bilinear_rotation patch w =
      (match rotate bilinear_rotation (one_minus shifted)
               (let max_rotation_radians :=
                  math_radians (augmentation_max_rotation_degrees (FLAGS w)) in
                uniform_value (- max_rotation_radians) max_rotation_radians
                              (uint32_to_float (rng w (S (rng_draws w))))) with
       | Ok rotated => Ok (one_minus rotated)
       | Raise e => Raise e
       end,
       advance_rng (advance_rng w)).
Proof.
  eexists. split; [apply augment_shift_run|].
  rewrite augment_bind, augment_shift_run.
  split; [reflexivity|]. by rewrite augment_rotation_run.
Qed.

(** ** The example parser *)

(** A successful parse read every requested feature from the proto. *)
Lemma parse_single_example_lookup r feature_types parsed key spec :
  parse_single_example r feature_types = Ok parsed ->
  feature_types !! key = Some spec ->
  ∃ e t, r = Serialized e
         ∧ parse_feature e key spec = Some t
         ∧ parsed !! key = Some t.
Proof.
  intros Hparse Hspec. destruct r as [e|]; [|discriminate].
  simpl in Hparse. case_decide as Hall; [|discriminate].
  injection Hparse as <-.
  assert (Hkey : map_imap (fun key spec => Some (parse_feature e key spec))
                          feature_types !! key
                 = Some (parse_feature e key spec))
    by (by rewrite map_lookup_imap, Hspec).
  destruct (Hall _ _ Hkey) as [t Ht].
  exists e, t. split; [reflexivity|]. split; [exact Ht|].
  by rewrite lookup_omap, Hkey, <- Ht.
Qed.

Lemma parse_feature_int64_scalar e key t :
  parse_feature e key {| shape := []; dtype := int64 |} = Some t ->
  ∃ n, int64_list_value (feature e key) = [n] ∧ t = int64_scalar n.
Proof.
  unfold parse_feature; simpl.
  destruct (int64_list_value (feature e key)) as [|n [|? ?]]; try discriminate.
  intros [= <-]. by exists n.
Qed.

Lemma parse_feature_float_scalar e key t :
  parse_feature e key {| shape := []; dtype := float32 |} = Some t ->
  ∃ x, float_list_value (feature e key) = [x] ∧ t = float_scalar x.
Proof.
  unfold parse_feature; simpl.
  destruct (float_list_value (feature e key)) as [|x [|? ?]]; try discriminate.
  intros [= <-]. by exists x.
Qed.

Lemma parse_feature_float_matrix e key h w t :
  parse_feature e key {| shape := [h; w]; dtype := float32 |} = Some t ->
  0 ≤ h ∧ 0 ≤ w
  ∧ Z.of_nat (length (float_list_value (feature e key))) = h * w
  ∧ t = float_matrix (reshape (Z.to_nat h) (Z.to_nat w)
                              (float_list_value (feature e key))).
Proof.
  unfold parse_feature; simpl. case_decide as Hcount; [|discriminate].
  intros [= <-]. destruct Hcount as (? & ? & ?). by repeat split.
Qed.

Lemma parser_feature_types_patch h w b :
  parser_feature_types h w b !! "patch"
  = Some {| shape := [h; w]; dtype := float32 |}.
Proof. by destruct b. Qed.

Lemma parser_feature_types_label h w b :
  parser_feature_types h w b !! "label"
  = Some {| shape := []; dtype := int64 |}.
Proof. by destruct b. Qed.

Lemma parser_feature_types_label_weight h w :
  parser_feature_types h w true !! "label_weight"
  = Some {| shape := []; dtype := float32 |}.
Proof. reflexivity. Qed.

Lemma reshape_has_shape (h wd : nat) (values : list Q) :
  length values = (h * wd)%nat -> has_shape h wd (reshape h wd values).
Proof.
  revert values. induction h as [|h IH]; intros values Hlen; simpl.
  - split; [reflexivity | constructor].
  - destruct (IH (drop wd values)) as [Hrows Hcols].
    { rewrite length_drop. simpl in Hlen. lia. }
    split; [simpl; by rewrite Hrows|].
    constructor; [|exact Hcols].
    rewrite length_take. simpl in Hlen. lia.
Qed.

Lemma augment_shift_has_shape H W patch w out w' :
  has_shape H W patch ->
  _augment_shift patch w = (Ok out, w') ->
  has_shape H W out.
Proof.
  intros Hshape. rewrite augment_shift_run. cbv zeta. intros [= <- _].
  destruct (less _ _); [|destruct (less _ _)].
  - rewrite shift_left_rows.
    by apply has_shape_map_rows; [apply shift_left_row_length|].
  - rewrite shift_right_rows.
    by apply has_shape_map_rows; [apply shift_right_row_length|].
  - exact Hshape.
Qed.

(** The augmentation consumes its two draws whatever comes of it. *)
Lemma augment_run bilinear_rotation patch w :
  ∃ outcome,
    _augment bilinear_rotation patch w = (outcome, advance_rng (advance_rng w)).
Proof.
  rewrite augment_bind, augment_shift_run, augment_rotation_run. by eexists.
Qed.

(** It succeeds on every patch that has rows and columns. *)
Lemma augment_ok bilinear_rotation (H W : nat) patch w :
  has_shape H W patch -> (0 < H)%nat -> (0 < W)%nat ->
  ∃ out,
    _augment bilinear_rotation patch w = (Ok out, advance_rng (advance_rng w)).
Proof.
  intros Hshape HH HW. rewrite augment_bind.
  destruct (_augment_shift patch w) as [[shifted|e] w1] eqn:Hshift;
    [|rewrite augment_shift_run in Hshift; discriminate].
  pose proof (augment_shift_has_shape H W patch w shifted w1 Hshape Hshift)
    as Hshifted.
  rewrite augment_shift_run in Hshift. injection Hshift as _ <-.
  rewrite augment_rotation_run.
  rewrite (rotate_ok _ H W) by (by try apply one_minus_has_shape).
  by eexists.
Qed.

(** It fails on a patch without rows or without columns: the rotation op
    refuses it. *)
Lemma augment_empty bilinear_rotation (H W : nat) patch w :
  has_shape H W patch -> H = 0%nat ∨ W = 0%nat ->
  _augment bilinear_rotation patch w
  = (Raise InvalidArgumentError, advance_rng (advance_rng w)).
Proof.
  intros Hshape Hzero. rewrite augment_bind.
  destruct (_augment_shift patch w) as [[shifted|e] w1] eqn:Hshift;
    [|rewrite augment_shift_run in Hshift; discriminate].
  pose proof (augment_shift_has_shape H W patch w shifted w1 Hshape Hshift)
    as Hshifted.
  rewrite augment_shift_run in Hshift. injection Hshift as _ <-.
  rewrite augment_rotation_run.
  by rewrite (rotate_empty _ H W) by (by try apply one_minus_has_shape).
Qed.

(** What the parser does with a record that parses, spelled out. *)
Lemma parser_run bilinear_rotation weights_from_labels h wd r w parsed :
  parse_single_example r
    (parser_feature_types h wd (use_included_label_weight (FLAGS w)))
  = Ok parsed ->
  ∃ e label weight,
    r = Serialized e
    ∧ int64_list_value (feature e "label") = [label]
    ∧ parsed !! "patch"
      = Some (float_matrix (reshape (Z.to_nat h) (Z.to_nat wd)
                                    (float_list_value (feature e "patch"))))
    ∧ has_shape (Z.to_nat h) (Z.to_nat wd)
                (reshape (Z.to_nat h) (Z.to_nat wd)
                         (float_list_value (feature e "patch")))
    ∧ (if use_included_label_weight (FLAGS w)
       then ∃ label_weight,
              float_list_value (feature e "label_weight") = [label_weight]
              ∧ weight = binary32 (weights_from_labels label * label_weight)
       else weight = weights_from_labels label)
    ∧ parser bilinear_rotation weights_from_labels h wd r w
      = match _augment bilinear_rotation
                (reshape (Z.to_nat h) (Z.to_nat wd)
                         (float_list_value (feature e "patch"))) w with
        | (Ok patch', w') =>
            (Ok ({[ "patch" := float_matrix patch';
                    "weight" := float_scalar weight ]}, label), w')
        | (Raise err, w') => (Raise err, w')
        end.
Proof.
  intros Hparse.
  destruct (parse_single_example_lookup _ _ _ _ _ Hparse
              (parser_feature_types_label _ _ _)) as (e & tl & -> & Hl & Hlabel).
  apply parse_feature_int64_scalar in Hl as (label & Hrecord_label & ->).
  destruct (parse_single_example_lookup _ _ _ _ _ Hparse
              (parser_feature_types_patch _ _ _)) as (e' & tp & [= <-] & Hp & Hpatch).
  apply parse_feature_float_matrix in Hp as (Hh & Hw & Hsize & ->).
  assert (Hshape : has_shape (Z.to_nat h) (Z.to_nat wd)
                     (reshape (Z.to_nat h) (Z.to_nat wd)
                              (float_list_value (feature e "patch")))).
  { apply reshape_has_shape.
    apply Nat2Z.inj. rewrite Nat2Z.inj_mul, !Z2Nat.id by lia. exact Hsize. }
  set (patch := reshape _ _ _) in *.
  destruct (use_included_label_weight (FLAGS w)) eqn:Hflag.
  - destruct (parse_single_example_lookup _ _ _ _ _ Hparse
                (parser_feature_types_label_weight _ _))
      as (e' & tw & [= <-] & Hw' & Hweight).
    apply parse_feature_float_scalar in Hw' as (label_weight & Hrecord_weight & ->).
    exists e, label, (binary32 (weights_from_labels label * label_weight)).
    split; [reflexivity|]. split; [exact Hrecord_label|].
    split; [exact Hpatch|]. split; [exact Hshape|].
    split; [exists label_weight; split; [exact Hrecord_weight | reflexivity]|].
    unfold parser. unfold_binds. rewrite Hflag, Hparse.
    unfold getitem. rewrite Hlabel, Hweight, Hpatch.
    unfold as_int64, as_float, as_patch. unfold_binds. cbv iota beta.
    subst patch.
    destruct (_augment bilinear_rotation _ w) as [[patch'|err] w'];
      reflexivity.
  - exists e, label, (weights_from_labels label).
    split; [reflexivity|]. split; [exact Hrecord_label|].
    split; [exact Hpatch|]. split; [exact Hshape|].
    split; [reflexivity|].
    unfold parser. unfold_binds. rewrite Hflag, Hparse.
    unfold getitem. rewrite Hlabel, Hpatch.
    unfold as_int64, as_patch. unfold_binds. cbv iota beta.
    subst patch.
    destruct (_augment bilinear_rotation _ w) as [[patch'|err] w'];
      reflexivity.
Qed.

(** ** Claim C5 *)

(** C5. For every record that parses, of patches with positive height and
    width, the parser computes the weight as weights_from_labels(label);
    exactly when use_included_label_weight is set it multiplies that weight
    by the record's label_weight, a float32 product; and it returns
    ({'patch': augmented patch, 'weight': weight}, label) with the record's
    label unchanged. *)
Theorem parser_weight_and_label
    (bilinear_rotation : Patch -> Q -> Patch) (weights_from_labels : Z -> Q)
    (patch_height patch_width : Z) (r : record) (w : World)
    (parsed : gmap string Tensor) :
  0 < patch_height ->
  0 < patch_width ->
  parse_single_example r
    (parser_feature_types patch_height patch_width
                          (use_included_label_weight (FLAGS w)))
  = Ok parsed ->
  ∃ e label patch patch' weight,
    r = Serialized e
    ∧ int64_list_value (feature e "label") = [label]
    ∧ parsed !! "patch" = Some (float_matrix patch)
    ∧ _augment bilinear_rotation patch w
      = (Ok patch', advance_rng (advance_rng w))
    ∧ (if use_included_label_weight (FLAGS w)
       then ∃ label_weight,
              float_list_value (feature e "label_weight") = [label_weight]
              ∧ weight = binary32 (weights_from_labels label * label_weight)
       else weight = weights_from_labels label)
    ∧ parser bilinear_rotation weights_from_labels patch_height patch_width r w
      = (Ok ({[ "patch" := float_matrix patch';
                "weight" := float_scalar weight ]}, label),
         advance_rng (advance_rng w)).
Proof.
  intros Hh Hw Hparse.
  destruct (parser_run bilinear_rotation weights_from_labels _ _ _ _ _ Hparse)
    as (e & label & weight & -> & Hlabel & Hpatch & Hshape & Hweight & Hrun).
  destruct (augment_ok bilinear_rotation _ _ _ w Hshape) as [patch' Haug];
    [lia | lia |].
  rewrite Haug in Hrun.
  exists e, label,
    (reshape (Z.to_nat patch_height) (Z.to_nat patch_width)
             (float_list_value (feature e "patch"))), patch', weight.
  split; [reflexivity|]. split; [exact Hlabel|]. split; [exact Hpatch|].
  split; [exact Haug|]. split; [exact Hweight | exact Hrun].
Qed.

Lemma parser_weight_and_label_witness :
  ∃ parsed,
    parse_single_example sample_record (parser_feature_types 2 3 true) = Ok parsed
    ∧ ∃ e label patch patch' weight,
        sample_record = Serialized e
        ∧ int64_list_value (feature e "label") = [label]
        ∧ parsed !! "patch" = Some (float_matrix patch)
        ∧ _augment (fun p _ => p) patch (sample_world true good_files)
          = (Ok patch', advance_rng (advance_rng (sample_world true good_files)))
        ∧ (∃ label_weight,
             float_list_value (feature e "label_weight") = [label_weight]
             ∧ weight = binary32 (inject_Z label * label_weight))
        ∧ parser (fun p _ => p) inject_Z 2 3 sample_record
                 (sample_world true good_files)
          = (Ok ({[ "patch" := float_matrix patch';
                    "weight" := float_scalar weight ]}, label),
             advance_rng (advance_rng (sample_world true good_files))).
Proof.
  assert (Hsome : ∃ parsed,
             parse_single_example sample_record (parser_feature_types 2 3 true)
             = Ok parsed) by (eexists; vm_compute; reflexivity).
  destruct Hsome as [parsed Hparse].
  exists parsed. split; [exact Hparse|].
  exact (parser_weight_and_label (fun p _ => p) inject_Z 2 3 sample_record
           (sample_world true good_files) parsed ltac:(lia) ltac:(lia) Hparse).
Defined.

(** ** Dimension discovery *)

Lemma log_events_app es1 es2 w :
  log_events es2 (log_events es1 w) = log_events (es1 ++ es2) w.
Proof. unfold log_events; simpl. by rewrite app_assoc. Qed.

Lemma log_event_events e es w :
  log_event e (log_events es w) = log_events (es ++ [e]) w.
Proof. unfold log_event, log_events; simpl. by rewrite app_assoc. Qed.

Lemma log_events_nil w : log_events [] w = w.
Proof. destruct w. unfold log_events; simpl. by rewrite app_nil_r. Qed.

(** The inner loop body never falls through: it returns or raises, and
    leaves the state alone. *)
Lemma scan_record_run c w :
  scan_record c w =
  (match c with
   | Corrupted => Raise DataLossError
   | Chunk Malformed => Raise DecodeError
   | Chunk (Serialized e) =>
       match int64_list_value (feature e "height"),
             int64_list_value (feature e "width") with
       | h :: _, wd :: _ => Ok (Return (h, wd))
       | _, _ => Raise IndexError
       end
   end, w).
Proof.
  unfold scan_record. destruct c as [[e|]|]; try reflexivity.
  unfold_binds. simpl.
  by destruct (int64_list_value (feature e "height")),
              (int64_list_value (feature e "width")).
Qed.

(** So the inner loop is decided by the first chunk of the file. *)
Lemma for_each_scan_record chunks w :
  for_each chunks scan_record w =
  match chunks with
  | [] => (Ok Continue, w)
  | c :: _ => scan_record c w
  end.
Proof.
  destruct chunks as [|c rest]; [reflexivity|].
  simpl. unfold_binds. rewrite scan_record_run.
  destruct c as [[e|]|]; try reflexivity.
  by destruct (int64_list_value (feature e "height")),
              (int64_list_value (feature e "width")).
Qed.

Lemma scan_file_run filename w :
  scan_file filename w =
  match fs_files (fs w) !! filename with
  | Some [] => (Ok Continue, log_event (TFRecordIterator filename) w)
  | Some (c :: _) => scan_record c (log_event (TFRecordIterator filename) w)
  | None => (Raise NotFoundError, log_event (TFRecordIterator filename) w)
  end.
Proof.
  unfold scan_file, tf_record_iterator. unfold_binds.
  destruct (fs_files (fs w) !! filename) as [chunks|]; [|reflexivity].
  by rewrite for_each_scan_record.
Qed.

(** Empty files are passed over, each opened once. *)
Lemma for_each_skip_empty empties rest w :
  Forall (fun name => fs_files (fs w) !! name = Some []) empties ->
  for_each (empties ++ rest) scan_file w =
  for_each rest scan_file (log_events (map TFRecordIterator empties) w).
Proof.
  revert w. induction empties as [|name empties IH]; intros w Hempty.
  - simpl. by rewrite log_events_nil.
  - apply Forall_cons in Hempty as [Hname Hempty].
    simpl. unfold_binds. rewrite scan_file_run, Hname.
    rewrite IH by exact Hempty.
    f_equal. unfold log_events, log_event; simpl. by rewrite <- app_assoc.
Qed.

Lemma read_patch_dimensions_body_run w pattern :
  train_input_patches (FLAGS w) = Some pattern ->
  read_patch_dimensions_body w =
  match for_each (default [] (fs_glob (fs w) !! pattern)) scan_file
                 (log_events [GetMatchingFiles pattern] w) with
  | (Ok (Return dims), w') => (Ok (Some dims), w')
  | (Ok Continue, w') => (Ok None, w')
  | (Raise e, w') => (Raise e, w')
  end.
Proof.
  intros Hflag. unfold read_patch_dimensions_body, get_matching_files.
  unfold_binds. rewrite Hflag.
  change (log_event (GetMatchingFiles pattern) w)
    with (log_events [GetMatchingFiles pattern] w).
  by destruct (for_each _ scan_file _) as [[[|dims]|e] w'].
Qed.

(** No matching file, or only empty ones: the function falls off its loop
    and returns None. *)
Lemma read_patch_dimensions_body_all_empty w pattern :
  train_input_patches (FLAGS w) = Some pattern ->
  Forall (fun name => fs_files (fs w) !! name = Some [])
         (default [] (fs_glob (fs w) !! pattern)) ->
  read_patch_dimensions_body w =
  (Ok None,
   log_events (GetMatchingFiles pattern
               :: map TFRecordIterator (default [] (fs_glob (fs w) !! pattern)))
              w).
Proof.
  intros Hflag Hempty. rewrite (read_patch_dimensions_body_run _ _ Hflag).
  rewrite <- (app_nil_r (default [] _)) at 1.
  rewrite for_each_skip_empty by exact Hempty.
  simpl. unfold_binds. by rewrite log_events_app.
Qed.

(** Empty files first, then a file with a first chunk: that chunk decides. *)
Lemma read_patch_dimensions_body_first_chunk w pattern empties f rest c more :
  train_input_patches (FLAGS w) = Some pattern ->
  fs_glob (fs w) !! pattern = Some (empties ++ f :: rest) ->
  Forall (fun name => fs_files (fs w) !! name = Some []) empties ->
  fs_files (fs w) !! f = Some (c :: more) ->
  read_patch_dimensions_body w =
  (match (scan_record c w).1 with
   | Ok (Return dims) => Ok (Some dims)
   | Ok Continue => Ok None
   | Raise e => Raise e
   end,
   log_events (GetMatchingFiles pattern
               :: map TFRecordIterator (empties ++ [f])) w).
Proof.
  intros Hflag Hglob Hempty Hfile.
  rewrite (read_patch_dimensions_body_run _ _ Hflag), Hglob. simpl default.
  rewrite for_each_skip_empty by exact Hempty.
  simpl for_each. unfold_binds. rewrite scan_file_run.
  simpl fs. rewrite Hfile, !scan_record_run. simpl fst.
  rewrite log_event_events, log_events_app, map_app. simpl map.
  simpl app.
  destruct c as [[e|]|]; try reflexivity.
  by destruct (int64_list_value (feature e "height")),
              (int64_list_value (feature e "width")).
Qed.




(** A call that returns leaves its value in the cache. *)
Lemma read_patch_dimensions_caches w v w1 :
  read_patch_dimensions w = (Ok v, w1) -> _results w1 = Some v.
Proof.
  unfold read_patch_dimensions, MemoizedFunction.
  destruct (_results w) as [cached|] eqn:Hcache.
  - by intros [= <- <-].
  - destruct (read_patch_dimensions_body w) as [[v'|e] w']; [|discriminate].
    by intros [= <- <-].
Qed.

(** A filled cache answers without touching anything. *)
Lemma read_patch_dimensions_cached w v :
  _results w = Some v -> read_patch_dimensions w = (Ok v, w).
Proof.
  intros Hcache. unfold read_patch_dimensions, MemoizedFunction.
  by rewrite Hcache.
Qed.

(** ** Claim C3 *)

(** C3. When the training glob matches no file, and likewise when every
    matching file is empty, read_patch_dimensions does not raise: it returns
    None (and caches it), where the claim requires an error. *)
Theorem read_patch_dimensions_without_records_returns_none :
  read_patch_dimensions (sample_world false no_files)
  = (Ok None,
     store_result None
       (log_events [GetMatchingFiles "train-*"] (sample_world false no_files)))
  ∧ read_patch_dimensions (sample_world false empty_files)
    = (Ok None,
       store_result None
         (log_events [GetMatchingFiles "train-*";
                      TFRecordIterator "train-0"; TFRecordIterator "train-1"]
                     (sample_world false empty_files))).
Proof. split; reflexivity. Qed.

(** ** Claim C7 *)

(** C7, as stated, fails: a first record without a height value is not
    passed over in favour of the next record, and a corrupted file is not
    passed over in favour of the next file; both raise. *)
Lemma dimension_discovery_does_not_skip :
  spec_dimension_discovery (sample_world false late_dimensions_files)
  = Some (5, 7)
  ∧ (read_patch_dimensions (sample_world false late_dimensions_files)).1
    = Raise IndexError
  ∧ spec_dimension_discovery (sample_world false corrupted_first_files)
    = Some (5, 7)
  ∧ (read_patch_dimensions (sample_world false corrupted_first_files)).1
    = Raise DataLossError.
Proof. repeat split; reflexivity. Qed.

(** C7, amended. Empty files are skipped silently, each opened once, and the
    scan goes on to the next file. The first record of the first non-empty
    file alone decides: if it parses and carries a height and a width integer
    list with at least one value each, (height[0], width[0]) is returned; if
    it is corrupted, does not parse, or lacks a value in either list, the
    error propagates. No later record and no later file is looked at. *)
Theorem dimension_discovery_first_record
    (w : World) (pattern : string) (empties rest : list string) (f : string)
    (c : chunk) (more : list chunk) :
  train_input_patches (FLAGS w) = Some pattern ->
  fs_glob (fs w) !! pattern = Some (empties ++ f :: rest) ->
  Forall (fun name => fs_files (fs w) !! name = Some []) empties ->
  fs_files (fs w) !! f = Some (c :: more) ->
  io_trace (read_patch_dimensions_body w).2
  = io_trace w ++ GetMatchingFiles pattern
                  :: map TFRecordIterator (empties ++ [f])
  ∧ (forall e h hs wd ws,
       c = Chunk (Serialized e) ->
       int64_list_value (feature e "height") = h :: hs ->
       int64_list_value (feature e "width") = wd :: ws ->
       (read_patch_dimensions_body w).1 = Ok (Some (h, wd)))
  ∧ (forall e,
       c = Chunk (Serialized e) ->
       int64_list_value (feature e "height") = []
       ∨ int64_list_value (feature e "width") = [] ->
       (read_patch_dimensions_body w).1 = Raise IndexError)
  ∧ (c = Chunk Malformed ->
     (read_patch_dimensions_body w).1 = Raise DecodeError)
  ∧ (c = Corrupted ->
     (read_patch_dimensions_body w).1 = Raise DataLossError).
Proof.
  intros Hflag Hglob Hempty Hfile.
  rewrite (read_patch_dimensions_body_first_chunk
             w pattern empties f rest c more Hflag Hglob Hempty Hfile).
  rewrite scan_record_run. simpl fst; simpl snd.
  split; [reflexivity|]. split; [|split; [|split]].
  - intros e h hs wd ws -> Hh Hw. by rewrite Hh, Hw.
  - intros e -> [Hh|Hw].
    + by rewrite Hh.
    + rewrite Hw. by destruct (int64_list_value (feature e "height")).
  - by intros ->.
  - by intros ->.
Qed.

Lemma dimension_discovery_first_record_witness :
  train_input_patches (FLAGS (sample_world false good_files)) = Some "train-*"
  ∧ fs_glob good_files !! "train-*" = Some (["train-0"] ++ "train-1" :: [])
  ∧ Forall (fun name => fs_files good_files !! name = Some []) ["train-0"]
  ∧ fs_files good_files !! "train-1" = Some (Chunk sample_record :: [Corrupted])
  ∧ (read_patch_dimensions_body (sample_world false good_files)).1
    = Ok (Some (2, 3)).
Proof.
  assert (Hflag : train_input_patches (FLAGS (sample_world false good_files))
                  = Some "train-*") by reflexivity.
  assert (Hglob : fs_glob good_files !! "train-*"
                  = Some (["train-0"] ++ "train-1" :: [])) by reflexivity.
  assert (Hempty : Forall (fun name => fs_files good_files !! name = Some [])
                          ["train-0"]) by (repeat constructor).
  assert (Hfile : fs_files good_files !! "train-1"
                  = Some (Chunk sample_record :: [Corrupted])) by reflexivity.
  destruct (dimension_discovery_first_record
              (sample_world false good_files) "train-*" ["train-0"] []
              "train-1" (Chunk sample_record) [Corrupted]
              Hflag Hglob Hempty Hfile) as (_ & Hgood & _).
  refine (conj Hflag (conj Hglob (conj Hempty (conj Hfile _)))).
  exact (Hgood _ 2 [] 3 [] eq_refl eq_refl eq_refl).
Defined.

(** ** Claim C8 *)

(** C8. read_patch_dimensions is memoized: once a call has returned a value,
    the next call returns the same value and leaves the state as it is, so
    no filesystem primitive is called again; the same holds in any later
    state that still has the cache, whatever the files and flags are then. *)
Theorem read_patch_dimensions_memoized (w w1 : World) (v : option (Z * Z)) :
  read_patch_dimensions w = (Ok v, w1) ->
  read_patch_dimensions w1 = (Ok v, w1)
  ∧ io_trace (read_patch_dimensions w1).2 = io_trace w1
  ∧ (forall w2, _results w2 = _results w1 ->
       read_patch_dimensions w2 = (Ok v, w2)).
Proof.
  intros Hfirst. apply read_patch_dimensions_caches in Hfirst.
  pose proof (read_patch_dimensions_cached w1 v Hfirst) as Hsecond.
  split; [exact Hsecond|]. split; [by rewrite Hsecond|].
  intros w2 Hcache. apply read_patch_dimensions_cached. congruence.
Qed.

Lemma read_patch_dimensions_memoized_witness :
  read_patch_dimensions (sample_world false good_files)
  = (Ok (Some (2, 3)), (read_patch_dimensions (sample_world false good_files)).2)
  ∧ read_patch_dimensions (read_patch_dimensions (sample_world false good_files)).2
    = (Ok (Some (2, 3)), (read_patch_dimensions (sample_world false good_files)).2)
  ∧ io_trace (read_patch_dimensions (sample_world false good_files)).2
    = [GetMatchingFiles "train-*"; TFRecordIterator "train-0";
       TFRecordIterator "train-1"].
Proof.
  assert (Hfirst : read_patch_dimensions (sample_world false good_files)
                   = (Ok (Some (2, 3)),
                      (read_patch_dimensions (sample_world false good_files)).2))
    by reflexivity.
  destruct (read_patch_dimensions_memoized _ _ _ Hfirst) as (Hsecond & _ & _).
  exact (conj Hfirst (conj Hsecond eq_refl)).
Defined.

(** ** The input function *)

Lemma input_fn_run
    (bilinear_rotation : Patch -> Q -> Patch) (weights_from_labels : Z -> Q)
    {BatchedTensor : Type}
    (get_batched_tensor : Dataset (gmap string Tensor * Z) -> BatchedTensor)
    (input_patches : option string) (w w1 : World) (h wd : Z) :
  read_patch_dimensions w = (Ok (Some (h, wd)), w1) ->
  input_fn bilinear_rotation weights_from_labels get_batched_tensor input_patches w =
  match get_matching_files input_patches w1 with
  | (Ok files, w2) =>
      (Ok (get_batched_tensor
             (dataset_map (parser bilinear_rotation weights_from_labels h wd)
                          (TFRecordDataset files))), w2)
  | (Raise e, w2) => (Raise e, w2)
  end.
Proof.
  intros Hdims. unfold input_fn. unfold_binds. rewrite Hdims.
  unfold unpack_pair. unfold_binds.
  by destruct (get_matching_files input_patches w1) as [[files|e] w2].
Qed.

(** Without dimensions the unpacking in [input_fn] raises, before any
    dataset is built. *)
Lemma input_fn_without_dimensions_raises
    (bilinear_rotation : Patch -> Q -> Patch) (weights_from_labels : Z -> Q)
    {BatchedTensor : Type}
    (get_batched_tensor : Dataset (gmap string Tensor * Z) -> BatchedTensor)
    (input_patches : option string) (w w1 : World) :
  read_patch_dimensions w = (Ok None, w1) ->
  input_fn bilinear_rotation weights_from_labels get_batched_tensor input_patches w
  = (Raise TypeError, w1).
Proof.
  intros Hdims. unfold input_fn. unfold_binds. by rewrite Hdims.
Qed.

(** ** Claim C10 *)



(** ** The serving input receiver *)

Lemma serving_fn_run w w1 h wd :
  read_patch_dimensions w = (Ok (Some (h, wd)), w1) ->
  serving_fn w =
  (Ok {| sir_features :=
           {[ "patch" := parse_example_patch placeholder (h, wd) ]};
         receiver_tensors := parse_example_patch placeholder (h, wd);
         receiver_tensors_alternatives :=
           {[ "example" := placeholder;
              "patch" := parse_example_patch placeholder (h, wd) ]} |}, w1).
Proof.
  intros Hdims. unfold serving_fn. unfold_binds. by rewrite Hdims.
Qed.

(** What [tf.parse_example] hands out as ['patch'] is the record's float
    list, reshaped. *)
Lemma parse_patch_reshape h wd r p :
  parse_patch (h, wd) r = Ok p ->
  ∃ e, r = Serialized e
       ∧ p = reshape (Z.to_nat h) (Z.to_nat wd)
                     (float_list_value (feature e "patch")).
Proof.
  unfold parse_patch. simpl fst; simpl snd.
  destruct (parse_single_example r (patch_feature_types h wd))
    as [parsed|err] eqn:Hparse; [|discriminate].
  assert (Hspec : patch_feature_types h wd !! "patch"
                  = Some {| shape := [h; wd]; dtype := float32 |})
    by reflexivity.
  destruct (parse_single_example_lookup _ _ _ _ _ Hparse Hspec)
    as (e & t & -> & Ht & Hkey).
  apply parse_feature_float_matrix in Ht as (_ & _ & _ & ->).
  rewrite Hkey. intros [= <-]. exists e. split; reflexivity.
Qed.

Lemma parse_batch_reshape h wd rs ps :
  parse_batch (h, wd) rs = Ok ps ->
  Forall2 (fun r p =>
             ∃ e, r = Serialized e
                  ∧ p = reshape (Z.to_nat h) (Z.to_nat wd)
                                (float_list_value (feature e "patch")))
          rs ps.
Proof.
  revert ps. induction rs as [|r rs IH]; intros ps; simpl.
  - intros [= <-]. constructor.
  - destruct (parse_patch (h, wd) r) as [p|err] eqn:Hp; [|discriminate].
    destruct (parse_batch (h, wd) rs) as [ps'|err]; [|discriminate].
    intros [= <-]. constructor; [by apply parse_patch_reshape | by apply IH].
Qed.

(** What the receiver of [serving_fn] hands the model as ['patch']. *)
Lemma served_patch_run h wd fed fed_value :
  served_feature
    {| sir_features := {[ "patch" := parse_example_patch placeholder (h, wd) ]};
       receiver_tensors := parse_example_patch placeholder (h, wd);
       receiver_tensors_alternatives :=
         {[ "example" := placeholder;
            "patch" := parse_example_patch placeholder (h, wd) ]} |}
    "patch" fed fed_value
  = run fed fed_value (parse_example_patch placeholder (h, wd)).
Proof.
  unfold served_feature. simpl sir_features.
  by rewrite lookup_singleton_eq.
Qed.

Lemma run_fed_patches h wd ps :
  run (parse_example_patch placeholder (h, wd)) (Patches ps)
      (parse_example_patch placeholder (h, wd))
  = if bool_decide (0 ≤ h ∧ 0 ≤ wd
                    ∧ Forall (has_shape (Z.to_nat h) (Z.to_nat wd)) ps)
    then Ok (Patches ps) else Raise ValueError.
Proof.
  unfold run, feedable. simpl fst; simpl snd.
  destruct (bool_decide _); [|reflexivity].
  unfold evaluate. by rewrite decide_True.
Qed.

(** ** Claim C9 *)

(** C9. The serving input receiver applies no augmentation. When a request
    feeds serialized examples, the 'patch' feature the model gets is the
    batch of parsed (H, W) patches, each the record's float list reshaped;
    when it feeds patch tensors (the default receiver tensor, which is also
    the 'patch' alternative), a batch of (H, W) patches is handed on as it
    is, any other value is refused, and so whatever the model gets is the fed
    value itself. Neither path consults the random source or calls the shift
    or the rotation. *)
Theorem serving_applies_no_augmentation (w w1 : World) (h wd : Z) :
  read_patch_dimensions w = (Ok (Some (h, wd)), w1) ->
  ∃ sir,
    serving_fn w = (Ok sir, w1)
    ∧ receiver_tensors_alternatives sir !! "example" = Some placeholder
    ∧ receiver_tensors_alternatives sir !! "patch" = Some (receiver_tensors sir)
    ∧ (forall rs,
         served_feature sir "patch" placeholder (Strings rs)
         = match parse_batch (h, wd) rs with
           | Ok ps => Ok (Patches ps)
           | Raise e => Raise e
           end)
    ∧ (forall rs ps,
         served_feature sir "patch" placeholder (Strings rs) = Ok (Patches ps) ->
         Forall2 (fun r p =>
                    ∃ e, r = Serialized e
                         ∧ p = reshape (Z.to_nat h) (Z.to_nat wd)
                                       (float_list_value (feature e "patch")))
                 rs ps)
    ∧ (forall ps,
         0 ≤ h -> 0 ≤ wd ->
         Forall (has_shape (Z.to_nat h) (Z.to_nat wd)) ps ->
         served_feature sir "patch" (receiver_tensors sir) (Patches ps)
         = Ok (Patches ps))
    ∧ (forall ps,
         ¬ Forall (has_shape (Z.to_nat h) (Z.to_nat wd)) ps ->
         served_feature sir "patch" (receiver_tensors sir) (Patches ps)
         = Raise ValueError)
    ∧ (forall fed_value out,
         served_feature sir "patch" (receiver_tensors sir) fed_value = Ok out ->
         out = fed_value).
Proof.
  intros Hdims. eexists. split; [by apply serving_fn_run|].
  simpl receiver_tensors.
  split; [reflexivity|]. split; [reflexivity|].
  assert (Hfed : forall rs,
             run placeholder (Strings rs) (parse_example_patch placeholder (h, wd))
             = match parse_batch (h, wd) rs with
               | Ok ps => Ok (Patches ps)
               | Raise e => Raise e
               end) by reflexivity.
  split; [|split; [|split; [|split]]].
  - intros rs. by rewrite served_patch_run.
  - intros rs ps. rewrite served_patch_run, Hfed.
    destruct (parse_batch (h, wd) rs) as [ps'|err] eqn:Hbatch; [|discriminate].
    intros [= <-]. by apply parse_batch_reshape.
  - intros ps Hh Hwd Hshape. rewrite served_patch_run, run_fed_patches.
    by rewrite bool_decide_eq_true_2.
  - intros ps Hshape. rewrite served_patch_run, run_fed_patches.
    rewrite bool_decide_eq_false_2; [reflexivity|].
    intros (_ & _ & Hall). by apply Hshape.
  - intros fed_value out. rewrite served_patch_run.
    destruct fed_value as [rs|ps]; [discriminate|].
    rewrite run_fed_patches. destruct (bool_decide _); [|discriminate].
    by intros [= <-].
Qed.

Lemma serving_applies_no_augmentation_witness :
  read_patch_dimensions (sample_world false good_files)
  = (Ok (Some (2, 3)), (read_patch_dimensions (sample_world false good_files)).2)
  ∧ ∃ sir,
      (serving_fn (sample_world false good_files)).1 = Ok sir
      ∧ served_feature sir "patch" placeholder (Strings [sample_record])
        = Ok (Patches [[[1; 0; 1]; [1; (1 # 2); 1]]%Q])
      ∧ served_feature sir "patch" (receiver_tensors sir) (Patches [sample_patch])
        = Ok (Patches [sample_patch])
      ∧ served_feature sir "patch" (receiver_tensors sir)
                       (Patches [[[1; 0]; [0; 1]]%Q])
        = Raise ValueError.
Proof.
  assert (Hdims : read_patch_dimensions (sample_world false good_files)
                  = (Ok (Some (2, 3)),
                     (read_patch_dimensions (sample_world false good_files)).2))
    by reflexivity.
  split; [exact Hdims|].
  destruct (serving_applies_no_augmentation _ _ 2 3 Hdims)
    as (sir & Hrun & _ & _ & Hexample & _ & Hpatches & Hrefused & _).
  exists sir. split; [by rewrite Hrun|]. split; [|split].
  - rewrite Hexample. vm_compute. reflexivity.
  - apply Hpatches; [lia | lia |].
    repeat constructor.
  - apply Hrefused. intros Hall. apply Forall_cons in Hall as [[_ Hcols] _].
    apply Forall_cons in Hcols as [Hrow _]. vm_compute in Hrow. discriminate.
Defined.


(** * Further properties *)

(** ** The shifts *)

Lemma shift_row_round_trip row :
  (2 <= length row)%nat ->
  shift_right_row (shift_left_row row) !! 0%nat = row !! 1%nat
  ∧ (forall j, (1 <= j < length row)%nat ->
       shift_right_row (shift_left_row row) !! j = row !! j)
  ∧ shift_left_row (shift_right_row row) !! (length row - 1)%nat
    = row !! (length row - 2)%nat
  ∧ (forall j, (j + 1 < length row)%nat ->
       shift_left_row (shift_right_row row) !! j = row !! j).
Proof.
  intros Hlen.
  pose proof (shift_left_row_length row) as Hl.
  pose proof (shift_right_row_length row) as Hr.
  split; [|split; [|split]].
  - rewrite shift_right_row_first by lia.
    by rewrite shift_left_row_lookup by lia.
  - intros j Hj. rewrite shift_right_row_lookup by lia.
    rewrite shift_left_row_lookup by lia. f_equal. lia.
  - rewrite <- Hr at 1. rewrite shift_left_row_last by lia.
    rewrite Hr, shift_right_row_lookup by lia. f_equal. lia.
  - intros j Hj. rewrite shift_left_row_lookup by lia.
    rewrite shift_right_row_lookup by lia. f_equal. lia.
Qed.

(** X1. The two shifts are not inverse to each other: on a patch at least two
    columns wide, shifting left and then right gives the patch back except
    that column 0 now holds column 1; shifting right and then left gives it
    back except that the last column now holds the one before it. *)
Theorem shift_round_trip_loses_edge_column (H W : nat) (patch : Patch) :
  has_shape H W patch ->
  (2 <= W)%nat ->
  column (_shift_right (_shift_left patch)) 0 = column patch 1
  ∧ (forall j, (1 <= j < W)%nat ->
       column (_shift_right (_shift_left patch)) j = column patch j)
  ∧ column (_shift_left (_shift_right patch)) (W - 1) = column patch (W - 2)
  ∧ (forall j, (j + 1 < W)%nat ->
       column (_shift_left (_shift_right patch)) j = column patch j).
Proof.
  intros [_ Hrows] HW.
  rewrite !shift_left_rows, !shift_right_rows, !map_map.
  split; [|split; [|split]].
  - apply (column_map_rows _ W); [exact Hrows|]. intros row Hrow.
    apply shift_row_round_trip. lia.
  - intros j Hj. apply (column_map_rows _ W); [exact Hrows|]. intros row Hrow.
    apply shift_row_round_trip; lia.
  - apply (column_map_rows _ W); [exact Hrows|]. intros row Hrow.
    rewrite <- Hrow. apply shift_row_round_trip. lia.
  - intros j Hj. apply (column_map_rows _ W); [exact Hrows|]. intros row Hrow.
    apply shift_row_round_trip; lia.
Qed.

Lemma shift_round_trip_loses_edge_column_witness :
  has_shape 2 3 sample_patch
  ∧ (2 <= 3)%nat
  ∧ column (_shift_right (_shift_left sample_patch)) 0 = column sample_patch 1
  ∧ column (_shift_left (_shift_right sample_patch)) 2 = column sample_patch 1.
Proof.
  assert (Hshape : has_shape 2 3 sample_patch)
    by (split; [reflexivity | repeat constructor]).
  assert (HW : (2 <= 3)%nat) by lia.
  destruct (shift_round_trip_loses_edge_column 2 3 sample_patch Hshape HW)
    as (Hfirst & _ & Hlast & _).
  exact (conj Hshape (conj HW (conj Hfirst Hlast))).
Defined.

Lemma shift_row_narrow row :
  (length row <= 1)%nat -> shift_left_row row = row ∧ shift_right_row row = row.
Proof.
  destruct row as [|x [|y row]]; simpl; intros Hlen; [done | done | lia].
Qed.

Lemma map_rows_id (f : list Q -> list Q) (W : nat) (patch : Patch) :
  Forall (fun row => length row = W) patch ->
  (forall row, length row = W -> f row = row) ->
  map f patch = patch.
Proof.
  intros Hrows Hf. induction Hrows as [|row p Hrow _ IH]; simpl; [reflexivity|].
  by rewrite Hf, IH.
Qed.

(** X2. On a patch with at most one column there is nothing to shift: both
    shifts return the patch itself. *)
Theorem shift_of_narrow_patch (H W : nat) (patch : Patch) :
  has_shape H W patch ->
  (W <= 1)%nat ->
  _shift_left patch = patch ∧ _shift_right patch = patch.
Proof.
  intros [_ Hrows] HW. rewrite shift_left_rows, shift_right_rows.
  split; apply (map_rows_id _ W); try exact Hrows;
    intros row Hrow; apply shift_row_narrow; lia.
Qed.

Lemma shift_of_narrow_patch_witness :
  has_shape 2 1 [[1%Q]; [0%Q]]
  ∧ (1 <= 1)%nat
  ∧ _shift_left [[1%Q]; [0%Q]] = [[1%Q]; [0%Q]]
  ∧ _shift_right [[1%Q]; [0%Q]] = [[1%Q]; [0%Q]].
Proof.
  assert (Hshape : has_shape 2 1 [[1%Q]; [0%Q]])
    by (split; [reflexivity | repeat constructor]).
  assert (HW : (1 <= 1)%nat) by lia.
  destruct (shift_of_narrow_patch 2 1 _ Hshape HW) as [Hl Hr].
  exact (conj Hshape (conj HW (conj Hl Hr))).
Defined.

Lemma shift_left_row_subseteq row : shift_left_row row ⊆ row.
Proof.
  unfold shift_left_row. intros x Hx. apply elem_of_app in Hx as [Hx|Hx];
    by eapply subseteq_drop.
Qed.

Lemma shift_right_row_subseteq row : shift_right_row row ⊆ row.
Proof.
  unfold shift_right_row. intros x Hx. apply elem_of_app in Hx as [Hx|Hx];
    by eapply subseteq_take.
Qed.

Lemma map_rows_lookup (f : list Q -> list Q) (patch : Patch) i row' :
  map f patch !! i = Some row' ->
  ∃ row, patch !! i = Some row ∧ row' = f row.
Proof.
  revert i. induction patch as [|row patch IH]; intros [|i]; simpl;
    try discriminate.
  - intros [= <-]. by exists row.
  - apply IH.
Qed.

(** X3. Whatever the flag and the draw, the shift augmentation returns a
    patch with the same number of rows, each row as long as the input row at
    that index and holding only pixel values of that input row: the edge is
    filled by replication, never with a new value. *)
Theorem augment_shift_rearranges_rows (patch : Patch) (w : World) :
  ∃ out,
    _augment_shift patch w = (Ok out, advance_rng w)
    ∧ length out = length patch
    ∧ forall i row',
        out !! i = Some row' ->
        ∃ row, patch !! i = Some row
               ∧ length row' = length row
               ∧ row' ⊆ row.
Proof.
  eexists. split; [apply augment_shift_run|]. cbv zeta.
  destruct (less _ _); [|destruct (less _ _)].
  - rewrite shift_left_rows. split; [apply length_map|].
    intros i row' Hrow. apply map_rows_lookup in Hrow as (row & Hrow & ->).
    exists row. split; [exact Hrow|].
    split; [apply shift_left_row_length | apply shift_left_row_subseteq].
  - rewrite shift_right_rows. split; [apply length_map|].
    intros i row' Hrow. apply map_rows_lookup in Hrow as (row & Hrow & ->).
    exists row. split; [exact Hrow|].
    split; [apply shift_right_row_length | apply shift_right_row_subseteq].
  - split; [reflexivity|]. intros i row' Hrow. by exists row'.
Qed.

(** ** The shift probability *)

(** X4. With a shift probability of zero or less the augmentation never
    shifts: for every draw it returns the patch itself, and it still consumes
    its one draw. *)
Theorem augment_shift_disabled (patch : Patch) (w : World) :
  (augmentation_x_shift_probability (FLAGS w) <= 0)%Q ->
  _augment_shift patch w = (Ok patch, advance_rng w).
Proof.
  intros Hp. rewrite augment_shift_run. cbv zeta.
  destruct (uniform_value_unit_range (rng w (rng_draws w))) as [Hr0 _].
  set (r := uniform_value 0 1 _) in *.
  set (p_shift := augmentation_x_shift_probability (FLAGS w)) in *.
  assert (Hmin : py_min 1 p_shift = p_shift)
    by (unfold py_min; rewrite float_lt_of_lt by lra; reflexivity).
  rewrite Hmin.
  assert (Hhalf : (binary32 (binary64 (p_shift / 2)) <= r)%Q).
  { assert (Hneg : (binary32 (binary64 (p_shift / 2)) <= 0)%Q).
    { apply binary32_nonpos, binary64_nonpos.
      change (p_shift / 2)%Q with (p_shift * (1 # 2))%Q. lra. }
    lra. }
  assert (Hfull : (binary32 p_shift <= r)%Q)
    by (pose proof (binary32_nonpos p_shift Hp); lra).
  by rewrite (less_of_le _ _ Hhalf), (less_of_le _ _ Hfull).
Qed.

Lemma augment_shift_disabled_witness :
  (augmentation_x_shift_probability (FLAGS (with_shift_probability 0)) <= 0)%Q
  ∧ _augment_shift sample_patch (with_shift_probability 0)
    = (Ok sample_patch, advance_rng (with_shift_probability 0)).
Proof.
  assert (Hp : (augmentation_x_shift_probability
                  (FLAGS (with_shift_probability 0)) <= 0)%Q) by discriminate.
  exact (conj Hp (augment_shift_disabled sample_patch _ Hp)).
Defined.

(** X5. A shift probability of one or more is clamped to one, and then every
    draw shifts the patch: to the left when the draw is below 1/2, to the
    right otherwise; the patch is never passed through unshifted. *)
Theorem augment_shift_always (patch : Patch) (w : World) :
  (1 <= augmentation_x_shift_probability (FLAGS w))%Q ->
  ∃ out,
    _augment_shift patch w = (Ok out, advance_rng w)
    ∧ ((uint32_to_float (rng w (rng_draws w)) < 1 # 2)%Q ->
       out = _shift_left patch)
    ∧ ((1 # 2 <= uint32_to_float (rng w (rng_draws w)))%Q ->
       out = _shift_right patch).
Proof.
  intros Hp. eexists. split; [apply augment_shift_run|]. cbv zeta.
  assert (Hmin : py_min 1 (augmentation_x_shift_probability (FLAGS w)) = 1%Q)
    by (unfold py_min; rewrite float_lt_of_le by exact Hp; reflexivity).
  rewrite Hmin. change (binary64 (1 / 2)) with (1 # 2)%Q.
  pose proof (uniform_value_unit (rng w (rng_draws w))) as Hr.
  destruct (uint32_to_float_range (rng w (rng_draws w))) as [_ Hu1].
  set (r := uniform_value 0 1 _) in *.
  split.
  - intros Hlt. rewrite (less_of_lt r (1 # 2)); [reflexivity|].
    change (binary32 (1 # 2)) with (1 # 2)%Q. lra.
  - intros Hge. rewrite (less_of_le r (1 # 2)), (less_of_lt r 1);
      [reflexivity | change (binary32 1) with 1%Q; lra
      | change (binary32 (1 # 2)) with (1 # 2)%Q; lra].
Qed.

Lemma augment_shift_always_witness :
  (1 <= augmentation_x_shift_probability (FLAGS (with_shift_probability 3)))%Q
  ∧ (_augment_shift sample_patch (with_shift_probability 3)).1
    = Ok (_shift_left sample_patch).
Proof.
  assert (Hp : (1 <= augmentation_x_shift_probability
                       (FLAGS (with_shift_probability 3)))%Q) by discriminate.
  destruct (augment_shift_always sample_patch _ Hp) as (out & Hrun & Hleft & _).
  refine (conj Hp _).
  rewrite Hrun. simpl fst. f_equal. apply Hleft. reflexivity.
Defined.






(** ** The rotation angle *)

Lemma uniform_value_binary32 minval maxval rnd :
  (binary32 (uniform_value minval maxval rnd)
   == uniform_value minval maxval rnd)%Q.
Proof. unfold uniform_value. apply binary32_idem. Qed.

(** X7. For a rotation flag between 0 and 360 degrees the rotation
    augmentation consumes one draw and calls the rotation op on the inverted
    patch with an angle that is a float32 number between minus and plus the
    float32 value of the flag converted to radians; with the flag at zero the
    draw is still consumed and the angle is zero. *)
Theorem augment_rotation_angle_within_bound
    (bilinear_rotation : Patch -> Q -> Patch) (patch : Patch) (w : World) :
  (0 <= augmentation_max_rotation_degrees (FLAGS w))%Q ->
  (augmentation_max_rotation_degrees (FLAGS w) <= 360)%Q ->
  ∃ rotation,
    _augment_rotation bilinear_rotation patch w
    = (match rotate bilinear_rotation (one_minus patch) rotation with
       | Ok rotated => Ok (one_minus rotated)
       | Raise e => Raise e
       end,
       advance_rng w)
    ∧ (binary32 rotation == rotation)%Q
    ∧ (- binary32 (math_radians (augmentation_max_rotation_degrees (FLAGS w)))
       <= rotation)%Q
    ∧ (rotation
       <= binary32 (math_radians (augmentation_max_rotation_degrees (FLAGS w))))%Q
    ∧ ((augmentation_max_rotation_degrees (FLAGS w) == 0)%Q ->
       (rotation == 0)%Q).
Proof.
  intros Hd _. eexists. split; [apply augment_rotation_run|]. cbv zeta.
  split; [apply uniform_value_binary32|].
  destruct (uint32_to_float_range (rng w (rng_draws w))) as [Hu0 Hu1].
  destruct (uniform_value_symmetric
              (math_radians (augmentation_max_rotation_degrees (FLAGS w)))
              (uint32_to_float (rng w (rng_draws w))))
    as [Hlo Hhi];
    [by apply math_radians_nonneg | exact Hu0 | by apply Qlt_le_weak |].
  split; [exact Hlo|]. split; [exact Hhi|].
  intros Hzero. rewrite (math_radians_zero _ Hzero), uniform_value_zero.
  reflexivity.
Qed.

Lemma augment_rotation_angle_within_bound_witness :
  (0 <= augmentation_max_rotation_degrees (FLAGS (sample_world false no_files)))%Q
  ∧ (augmentation_max_rotation_degrees (FLAGS (sample_world false no_files))
     <= 360)%Q
  ∧ ∃ rotation,
      (_augment_rotation (fun p _ => p) sample_patch
                         (sample_world false no_files)).1
      = Ok (one_minus (one_minus sample_patch))
      ∧ (- binary32 (math_radians 2) <= rotation)%Q
      ∧ (rotation <= binary32 (math_radians 2))%Q.
Proof.
  assert (Hd : (0 <= augmentation_max_rotation_degrees
                      (FLAGS (sample_world false no_files)))%Q) by discriminate.
  assert (Hd' : (augmentation_max_rotation_degrees
                   (FLAGS (sample_world false no_files)) <= 360)%Q)
    by discriminate.
  destruct (augment_rotation_angle_within_bound
              (fun p _ => p) sample_patch _ Hd Hd')
    as (rotation & Hrun & _ & Hlo & Hhi & _).
  refine (conj Hd (conj Hd' _)).
  exists rotation. split; [by rewrite Hrun|]. split; [exact Hlo | exact Hhi].
Defined.

(** ** More on dimension discovery *)

Lemma for_each_scan_file_continue files w :
  (for_each files scan_file w).1 = Ok Continue ->
  Forall (fun name => fs_files (fs w) !! name = Some []) files.
Proof.
  revert w. induction files as [|name files IH]; intros w Hrun;
    [constructor|].
  simpl in Hrun. unfold_binds. unfold mbind, M_bind in Hrun.
  rewrite scan_file_run in Hrun.
  destruct (fs_files (fs w) !! name) as [[|c more]|] eqn:Hfile.
  - constructor; [exact Hfile|]. exact (IH _ Hrun).
  - rewrite scan_record_run in Hrun.
    destruct c as [[e|]|]; try discriminate.
    destruct (int64_list_value (feature e "height")),
             (int64_list_value (feature e "width")); discriminate.
  - discriminate.
Qed.

(** X8. read_patch_dimensions (undecorated) returns None exactly when every
    file the training glob matches is empty, which includes the glob that
    matches nothing. *)
Theorem read_patch_dimensions_none_iff_all_empty (w : World) (pattern : string) :
  train_input_patches (FLAGS w) = Some pattern ->
  (read_patch_dimensions_body w).1 = Ok None
  ↔ Forall (fun name => fs_files (fs w) !! name = Some [])
           (default [] (fs_glob (fs w) !! pattern)).
Proof.
  intros Hflag. split.
  - rewrite (read_patch_dimensions_body_run w pattern Hflag).
    destruct (for_each _ scan_file _) as [[[|dims]|e] w'] eqn:Hscan;
      try discriminate.
    intros _.
    apply (for_each_scan_file_continue _
             (log_events [GetMatchingFiles pattern] w)).
    by rewrite Hscan.
  - intros Hempty.
    by rewrite (read_patch_dimensions_body_all_empty w pattern Hflag Hempty).
Qed.

Lemma read_patch_dimensions_none_iff_all_empty_witness :
  train_input_patches (FLAGS (sample_world false empty_files)) = Some "train-*"
  ∧ (read_patch_dimensions_body (sample_world false empty_files)).1 = Ok None
  ∧ Forall (fun name => fs_files empty_files !! name = Some [])
           ["train-0"; "train-1"].
Proof.
  assert (Hflag : train_input_patches (FLAGS (sample_world false empty_files))
                  = Some "train-*") by reflexivity.
  destruct (read_patch_dimensions_none_iff_all_empty _ _ Hflag) as [Hto _].
  refine (conj Hflag (conj eq_refl _)).
  exact (Hto eq_refl).
Defined.

Lemma for_each_scan_file_effects files w :
  ∃ opened rest,
    files = opened ++ rest
    ∧ (for_each files scan_file w).2
      = log_events (map TFRecordIterator opened) w.
Proof.
  revert w. induction files as [|name files IH]; intros w.
  - exists [], []. split; [reflexivity|]. simpl. by rewrite log_events_nil.
  - simpl. unfold_binds. rewrite scan_file_run.
    destruct (fs_files (fs w) !! name) as [[|c more]|].
    + destruct (IH (log_event (TFRecordIterator name) w))
        as (opened & rest & -> & Hstate).
      exists (name :: opened), rest. split; [reflexivity|].
      rewrite Hstate. unfold log_events, log_event; simpl.
      by rewrite <- app_assoc.
    + exists [name], files. split; [reflexivity|].
      rewrite scan_record_run.
      destruct c as [[e|]|]; try reflexivity.
      by destruct (int64_list_value (feature e "height")),
                  (int64_list_value (feature e "width")).
    + exists [name], files. by split.
Qed.

(** X9. Dimension discovery asks for the training glob once and then opens
    matched files in the order the glob gave them, each at most once and
    only up to the file that ends the scan; apart from this log of calls it
    leaves the whole state (flags, files, cache, random source) as it was. *)
Theorem read_patch_dimensions_opens_a_prefix (w : World) (pattern : string) :
  train_input_patches (FLAGS w) = Some pattern ->
  ∃ opened rest,
    default [] (fs_glob (fs w) !! pattern) = opened ++ rest
    ∧ (read_patch_dimensions_body w).2
      = log_events (GetMatchingFiles pattern :: map TFRecordIterator opened) w.
Proof.
  intros Hflag. rewrite (read_patch_dimensions_body_run w pattern Hflag).
  destruct (for_each_scan_file_effects
              (default [] (fs_glob (fs w) !! pattern))
              (log_events [GetMatchingFiles pattern] w))
    as (opened & rest & Hfiles & Hstate).
  exists opened, rest. split; [exact Hfiles|].
  rewrite log_events_app in Hstate. simpl app in Hstate.
  by destruct (for_each _ scan_file _) as [[[|dims]|e] w'].
Qed.

Lemma read_patch_dimensions_opens_a_prefix_witness :
  train_input_patches (FLAGS (sample_world false good_files)) = Some "train-*"
  ∧ ∃ opened rest,
      default [] (fs_glob (fs (sample_world false good_files)) !! "train-*")
      = opened ++ rest
      ∧ (read_patch_dimensions_body (sample_world false good_files)).2
        = log_events (GetMatchingFiles "train-*" :: map TFRecordIterator opened)
                     (sample_world false good_files).
Proof.
  assert (Hflag : train_input_patches (FLAGS (sample_world false good_files))
                  = Some "train-*") by reflexivity.
  exact (conj Hflag (read_patch_dimensions_opens_a_prefix _ _ Hflag)).
Defined.

(** X10. When the cache is empty and every file the training glob matches
    is empty (or none matches), both callers that unpack the dimensions fail
    with a TypeError right after the scan: input_fn, whatever glob it is
    given, never resolves that glob, and serving_fn builds no receiver. *)
Theorem callers_raise_when_all_files_empty
    (bilinear_rotation : Patch -> Q -> Patch) (weights_from_labels : Z -> Q)
    {BatchedTensor : Type}
    (get_batched_tensor : Dataset (gmap string Tensor * Z) -> BatchedTensor)
    (input_patches : option string) (w : World) (pattern : string) :
  _results w = None ->
  train_input_patches (FLAGS w) = Some pattern ->
  Forall (fun name => fs_files (fs w) !! name = Some [])
         (default [] (fs_glob (fs w) !! pattern)) ->
  input_fn bilinear_rotation weights_from_labels get_batched_tensor input_patches w
  = (Raise TypeError,
     store_result None
       (log_events (GetMatchingFiles pattern
                    :: map TFRecordIterator
                         (default [] (fs_glob (fs w) !! pattern))) w))
  ∧ serving_fn w
    = (Raise TypeError,
       store_result None
         (log_events (GetMatchingFiles pattern
                      :: map TFRecordIterator
                           (default [] (fs_glob (fs w) !! pattern))) w)).
Proof.
  intros Hcache Hflag Hempty.
  assert (Hdims : read_patch_dimensions w
                  = (Ok None,
                     store_result None
                       (log_events (GetMatchingFiles pattern
                                    :: map TFRecordIterator
                                         (default [] (fs_glob (fs w) !! pattern)))
                                   w))).
  { unfold read_patch_dimensions, MemoizedFunction. rewrite Hcache.
    by rewrite (read_patch_dimensions_body_all_empty w pattern Hflag Hempty). }
  split; [by apply input_fn_without_dimensions_raises|].
  unfold serving_fn. unfold_binds. by rewrite Hdims.
Qed.

Lemma callers_raise_when_all_files_empty_witness :
  _results (sample_world false empty_files) = None
  ∧ train_input_patches (FLAGS (sample_world false empty_files)) = Some "train-*"
  ∧ Forall (fun name => fs_files empty_files !! name = Some [])
           ["train-0"; "train-1"]
  ∧ (input_fn (fun p _ => p) inject_Z (fun d => d) (Some "eval-*")
              (sample_world false empty_files)).1 = Raise TypeError
  ∧ (serving_fn (sample_world false empty_files)).1 = Raise TypeError.
Proof.
  assert (Hcache : _results (sample_world false empty_files) = None)
    by reflexivity.
  assert (Hflag : train_input_patches (FLAGS (sample_world false empty_files))
                  = Some "train-*") by reflexivity.
  assert (Hempty : Forall (fun name => fs_files empty_files !! name = Some [])
                          ["train-0"; "train-1"]) by (repeat constructor).
  destruct (callers_raise_when_all_files_empty
              (fun p _ => p) inject_Z (fun d => d) (Some "eval-*")
              (sample_world false empty_files) "train-*" Hcache Hflag Hempty)
    as [Hinput Hserving].
  refine (conj Hcache (conj Hflag (conj Hempty _))).
  by rewrite Hinput, Hserving.
Defined.

(** ** More on the example parser *)

Lemma parse_single_example_fails e feature_types key spec :
  feature_types !! key = Some spec ->
  parse_feature e key spec = None ->
  parse_single_example (Serialized e) feature_types = Raise InvalidArgumentError.
Proof.
  intros Hspec Hnone. unfold parse_single_example.
  case_decide as Hall; [exfalso|reflexivity].
  assert (Hkey : map_imap (fun key spec => Some (parse_feature e key spec))
                          feature_types !! key = Some None)
    by (by rewrite map_lookup_imap, Hspec; simpl; rewrite Hnone).
  destruct (Hall _ _ Hkey) as [t Ht]. discriminate.
Qed.

Lemma parse_single_example_succeeds e feature_types :
  (forall key spec, feature_types !! key = Some spec ->
     is_Some (parse_feature e key spec)) ->
  ∃ parsed, parse_single_example (Serialized e) feature_types = Ok parsed.
Proof.
  intros Hall. unfold parse_single_example.
  rewrite decide_True; [by eexists|].
  intros key t. rewrite map_lookup_imap.
  destruct (feature_types !! key) as [spec|] eqn:Hspec; simpl; [|discriminate].
  intros [= <-]. by apply Hall.
Qed.

Lemma parser_raises bilinear_rotation weights_from_labels h wd r w err :
  parse_single_example r
    (parser_feature_types h wd (use_included_label_weight (FLAGS w)))
  = Raise err ->
  parser bilinear_rotation weights_from_labels h wd r w = (Raise err, w).
Proof.
  intros Hparse. unfold parser. unfold_binds. by rewrite Hparse.
Qed.

Lemma parse_feature_wrong_size e key h wd :
  Z.of_nat (length (float_list_value (feature e key))) ≠ h * wd ->
  parse_feature e key {| shape := [h; wd]; dtype := float32 |} = None.
Proof.
  intros Hsize. unfold parse_feature; simpl.
  case_decide as Hcount; [|reflexivity]. by destruct Hcount as (_ & _ & ?).
Qed.

Lemma parse_feature_no_int64_scalar e key :
  (forall n, int64_list_value (feature e key) ≠ [n]) ->
  parse_feature e key {| shape := []; dtype := int64 |} = None.
Proof.
  intros Hnot. unfold parse_feature; simpl.
  destruct (int64_list_value (feature e key)) as [|n [|? ?]]; try reflexivity.
  by destruct (Hnot n).
Qed.

Lemma parse_feature_no_float_scalar e key :
  (forall x, float_list_value (feature e key) ≠ [x]) ->
  parse_feature e key {| shape := []; dtype := float32 |} = None.
Proof.
  intros Hnot. unfold parse_feature; simpl.
  destruct (float_list_value (feature e key)) as [|x [|? ?]]; try reflexivity.
  by destruct (Hnot x).
Qed.

(** X11. The parser rejects a record with InvalidArgumentError, before any
    random draw, when the record's patch does not hold exactly
    height * width values, when its label is not a single integer, or when
    use_included_label_weight is set and its label_weight is not a single
    float. *)
Theorem parser_rejects
    (bilinear_rotation : Patch -> Q -> Patch) (weights_from_labels : Z -> Q)
    (patch_height patch_width : Z) (e : Example) (w : World) :
  Z.of_nat (length (float_list_value (feature e "patch")))
    ≠ patch_height * patch_width
  ∨ (forall n, int64_list_value (feature e "label") ≠ [n])
  ∨ (use_included_label_weight (FLAGS w) = true
     ∧ forall x, float_list_value (feature e "label_weight") ≠ [x]) ->
  parser bilinear_rotation weights_from_labels patch_height patch_width (Serialized e) w
  = (Raise InvalidArgumentError, w).
Proof.
  intros Hbad. apply parser_raises.
  destruct Hbad as [Hsize|[Hlabel|[Hflag Hweight]]].
  - eapply parse_single_example_fails;
      [apply parser_feature_types_patch | by apply parse_feature_wrong_size].
  - eapply parse_single_example_fails;
      [apply parser_feature_types_label | by apply parse_feature_no_int64_scalar].
  - rewrite Hflag. eapply parse_single_example_fails;
      [apply parser_feature_types_label_weight
      | by apply parse_feature_no_float_scalar].
Qed.

Lemma parser_rejects_witness :
  (Z.of_nat (length (float_list_value
                       (feature (labeled_patch [3] [2] [1; 1; 0; 0; 1]%Q 1 1%Q)
                                "patch")))
     ≠ 3 * 2
   ∨ (forall n, int64_list_value
                  (feature (labeled_patch [3] [2] [1; 1; 0; 0; 1]%Q 1 1%Q)
                           "label") ≠ [n])
   ∨ (use_included_label_weight (FLAGS (sample_world false good_files)) = true
      ∧ forall x, float_list_value
                    (feature (labeled_patch [3] [2] [1; 1; 0; 0; 1]%Q 1 1%Q)
                             "label_weight") ≠ [x]))
  ∧ parser (fun p _ => p) inject_Z 3 2
           (Serialized (labeled_patch [3] [2] [1; 1; 0; 0; 1]%Q 1 1%Q))
           (sample_world false good_files)
    = (Raise InvalidArgumentError, sample_world false good_files).
Proof.
  assert (Hbad :
    Z.of_nat (length (float_list_value
                        (feature (labeled_patch [3] [2] [1; 1; 0; 0; 1]%Q 1 1%Q)
                                 "patch")))
      ≠ 3 * 2
    ∨ (forall n, int64_list_value
                   (feature (labeled_patch [3] [2] [1; 1; 0; 0; 1]%Q 1 1%Q)
                            "label") ≠ [n])
    ∨ (use_included_label_weight (FLAGS (sample_world false good_files)) = true
       ∧ forall x, float_list_value
                     (feature (labeled_patch [3] [2] [1; 1; 0; 0; 1]%Q 1 1%Q)
                              "label_weight") ≠ [x]))
    by (left; vm_compute; discriminate).
  exact (conj Hbad (parser_rejects (fun p _ => p) inject_Z 3 2 _ _ Hbad)).
Defined.

Lemma parser_feature_types_keys h wd b key spec :
  parser_feature_types h wd b !! key = Some spec ->
  (key = "patch" ∧ spec = {| shape := [h; wd]; dtype := float32 |})
  ∨ (key = "label" ∧ spec = {| shape := []; dtype := int64 |})
  ∨ (b = true ∧ key = "label_weight"
     ∧ spec = {| shape := []; dtype := float32 |}).
Proof.
  unfold parser_feature_types. destruct b.
  - rewrite !lookup_insert_Some, lookup_singleton_Some.
    intros [[<- <-]|[_ [[<- <-]|[_ [<- <-]]]]]; auto.
  - rewrite !lookup_insert_Some, lookup_singleton_Some.
    intros [[<- <-]|[_ [<- <-]]]; auto.
Qed.

Lemma parse_feature_ext e e' key spec :
  feature e key = feature e' key ->
  parse_feature e key spec = parse_feature e' key spec.
Proof. intros Hsame. unfold parse_feature. by rewrite Hsame. Qed.

(** X12. The parser reads nothing of a record but its patch and label
    features, and its label_weight feature when use_included_label_weight is
    set: two records that agree on these give the same result, whatever else
    they hold (their own height and width fields included). *)
Theorem parser_reads_patch_and_label
    (bilinear_rotation : Patch -> Q -> Patch) (weights_from_labels : Z -> Q)
    (patch_height patch_width : Z) (e e' : Example) (w : World) :
  feature e "patch" = feature e' "patch" ->
  feature e "label" = feature e' "label" ->
  (use_included_label_weight (FLAGS w) = true ->
   feature e "label_weight" = feature e' "label_weight") ->
  parser bilinear_rotation weights_from_labels patch_height patch_width (Serialized e) w
  = parser bilinear_rotation weights_from_labels patch_height patch_width (Serialized e') w.
Proof.
  intros Hpatch Hlabel Hweight.
  assert (Hparse :
    parse_single_example (Serialized e)
      (parser_feature_types patch_height patch_width
                            (use_included_label_weight (FLAGS w)))
    = parse_single_example (Serialized e')
        (parser_feature_types patch_height patch_width
                              (use_included_label_weight (FLAGS w)))).
  { unfold parse_single_example.
    assert (Himap :
      map_imap (fun key spec => Some (parse_feature e key spec))
               (parser_feature_types patch_height patch_width
                                     (use_included_label_weight (FLAGS w)))
      = map_imap (fun key spec => Some (parse_feature e' key spec))
                 (parser_feature_types patch_height patch_width
                                       (use_included_label_weight (FLAGS w)))).
    { apply map_imap_ext. intros key.
      destruct (parser_feature_types _ _ _ !! key) as [spec|] eqn:Hspec;
        [|reflexivity].
      simpl. do 2 f_equal. apply parse_feature_ext.
      apply parser_feature_types_keys in Hspec
        as [[-> _]|[[-> _]|(Hflag & -> & _)]]; auto. }
    by rewrite Himap. }
  unfold parser. unfold_binds. by rewrite Hparse.
Qed.

Lemma parser_reads_patch_and_label_witness :
  feature (labeled_patch [2] [3] [1; 0; 1; 1; 1; 1]%Q 4 (1 # 4)%Q) "patch"
  = feature (labeled_patch [7] [] [1; 0; 1; 1; 1; 1]%Q 4 (3 # 4)%Q) "patch"
  ∧ feature (labeled_patch [2] [3] [1; 0; 1; 1; 1; 1]%Q 4 (1 # 4)%Q) "label"
    = feature (labeled_patch [7] [] [1; 0; 1; 1; 1; 1]%Q 4 (3 # 4)%Q) "label"
  ∧ parser (fun p _ => p) inject_Z 2 3
           (Serialized (labeled_patch [2] [3] [1; 0; 1; 1; 1; 1]%Q 4 (1 # 4)%Q))
           (sample_world false good_files)
    = parser (fun p _ => p) inject_Z 2 3
             (Serialized (labeled_patch [7] [] [1; 0; 1; 1; 1; 1]%Q 4 (3 # 4)%Q))
             (sample_world false good_files).
Proof.
  assert (Hpatch :
    feature (labeled_patch [2] [3] [1; 0; 1; 1; 1; 1]%Q 4 (1 # 4)%Q) "patch"
    = feature (labeled_patch [7] [] [1; 0; 1; 1; 1; 1]%Q 4 (3 # 4)%Q) "patch")
    by reflexivity.
  assert (Hlabel :
    feature (labeled_patch [2] [3] [1; 0; 1; 1; 1; 1]%Q 4 (1 # 4)%Q) "label"
    = feature (labeled_patch [7] [] [1; 0; 1; 1; 1; 1]%Q 4 (3 # 4)%Q) "label")
    by reflexivity.
  refine (conj Hpatch (conj Hlabel _)).
  apply parser_reads_patch_and_label; [exact Hpatch | exact Hlabel|].
  discriminate.
Defined.

(** X13. The parser accepts every record whose patch holds exactly
    height * width values (for positive dimensions), whose label is a single
    integer and, when use_included_label_weight is set, whose label_weight is
    a single float; it returns that label and consumes exactly two random
    draws, changing nothing else of the state. *)
Theorem parser_accepts
    (bilinear_rotation : Patch -> Q -> Patch) (weights_from_labels : Z -> Q)
    (patch_height patch_width : Z) (e : Example) (w : World) (label : Z) :
  0 < patch_height ->
  0 < patch_width ->
  Z.of_nat (length (float_list_value (feature e "patch")))
    = patch_height * patch_width ->
  int64_list_value (feature e "label") = [label] ->
  (use_included_label_weight (FLAGS w) = true ->
   ∃ x, float_list_value (feature e "label_weight") = [x]) ->
  ∃ out,
    parser bilinear_rotation weights_from_labels patch_height patch_width
           (Serialized e) w
    = (Ok (out, label), advance_rng (advance_rng w)).
Proof.
  intros Hh Hw Hsize Hlabel Hweight.
  destruct (parse_single_example_succeeds e
              (parser_feature_types patch_height patch_width
                                    (use_included_label_weight (FLAGS w))))
    as [parsed Hparse].
  { intros key spec Hspec.
    apply parser_feature_types_keys in Hspec
      as [[-> ->]|[[-> ->]|(Hflag & -> & ->)]]; unfold parse_feature; simpl.
    - rewrite decide_True by lia. by eexists.
    - rewrite Hlabel. by eexists.
    - destruct (Hweight Hflag) as [x ->]. by eexists. }
  destruct (parser_run bilinear_rotation weights_from_labels _ _ _ _ _ Hparse)
    as (e' & label' & weight & [= <-] & Hlabel' & _ & Hshape & _ & Hrun).
  rewrite Hlabel in Hlabel'. injection Hlabel' as <-.
  destruct (augment_ok bilinear_rotation _ _ _ w Hshape) as [patch' Haug];
    [lia | lia |].
  rewrite Haug in Hrun. eexists. exact Hrun.
Qed.

Lemma parser_accepts_witness :
  ∃ out,
    parser (fun p _ => p) inject_Z 3 2
           (Serialized (labeled_patch [2] [3] [1; 0; 1; 1; 1; 1]%Q 4 (1 # 4)%Q))
           (sample_world true good_files)
    = (Ok (out, 4), advance_rng (advance_rng (sample_world true good_files))).
Proof.
  apply parser_accepts; try reflexivity; try lia.
  intros _. by exists (1 # 4)%Q.
Defined.

(** X19. A patch without rows or without columns is not augmented: when
    one of the dimensions is 0, a record that parses (its patch holds no
    value) makes the parser fail with the InvalidArgumentError of the rotation
    op. *)
Theorem parser_refuses_empty_patches
    (bilinear_rotation : Patch -> Q -> Patch) (weights_from_labels : Z -> Q)
    (patch_height patch_width : Z) (r : record) (w : World)
    (parsed : gmap string Tensor) :
  patch_height = 0 ∨ patch_width = 0 ->
  parse_single_example r
    (parser_feature_types patch_height patch_width
                          (use_included_label_weight (FLAGS w)))
  = Ok parsed ->
  (parser bilinear_rotation weights_from_labels patch_height patch_width r w).1
  = Raise InvalidArgumentError.
Proof.
  intros Hzero Hparse.
  destruct (parser_run bilinear_rotation weights_from_labels _ _ _ _ _ Hparse)
    as (e & label & weight & -> & _ & _ & Hshape & _ & Hrun).
  rewrite Hrun, (augment_empty _ _ _ _ _ Hshape); [reflexivity | lia].
Qed.

Lemma parser_refuses_empty_patches_witness :
  ∃ parsed,
    parse_single_example
      (Serialized (labeled_patch [0] [3] [] 4 (1 # 4)%Q))
      (parser_feature_types 0 3 false)
    = Ok parsed
    ∧ (parser (fun p _ => p) inject_Z 0 3
              (Serialized (labeled_patch [0] [3] [] 4 (1 # 4)%Q))
              (sample_world false good_files)).1
      = Raise InvalidArgumentError.
Proof.
  assert (Hsome : ∃ parsed,
             parse_single_example
               (Serialized (labeled_patch [0] [3] [] 4 (1 # 4)%Q))
               (parser_feature_types 0 3 false)
             = Ok parsed) by (eexists; vm_compute; reflexivity).
  destruct Hsome as [parsed Hparse].
  exists parsed. split; [exact Hparse|].
  exact (parser_refuses_empty_patches (fun p _ => p) inject_Z 0 3 _
           (sample_world false good_files) parsed (or_introl eq_refl) Hparse).
Defined.

(** ** Shapes *)

Lemma parse_patch_has_shape h wd r p :
  parse_patch (h, wd) r = Ok p -> has_shape (Z.to_nat h) (Z.to_nat wd) p.
Proof.
  unfold parse_patch. simpl fst; simpl snd.
  destruct (parse_single_example r (patch_feature_types h wd))
    as [parsed|err] eqn:Hparse; [|discriminate].
  assert (Hspec : patch_feature_types h wd !! "patch"
                  = Some {| shape := [h; wd]; dtype := float32 |})
    by reflexivity.
  destruct (parse_single_example_lookup _ _ _ _ _ Hparse Hspec)
    as (e & t & -> & Ht & Hkey).
  apply parse_feature_float_matrix in Ht as (Hh & Hw & Hsize & ->).
  rewrite Hkey. intros [= <-]. apply reshape_has_shape.
  apply Nat2Z.inj. rewrite Nat2Z.inj_mul, !Z2Nat.id by lia. exact Hsize.
Qed.

Lemma parse_batch_has_shape h wd rs ps :
  parse_batch (h, wd) rs = Ok ps ->
  length ps = length rs
  ∧ Forall (has_shape (Z.to_nat h) (Z.to_nat wd)) ps.
Proof.
  revert ps. induction rs as [|r rs IH]; intros ps; simpl.
  - intros [= <-]. split; [reflexivity | constructor].
  - destruct (parse_patch (h, wd) r) as [p|err] eqn:Hp; [|discriminate].
    destruct (parse_batch (h, wd) rs) as [ps'|err]; [|discriminate].
    intros [= <-]. destruct (IH ps' eq_refl) as [Hlen Hall].
    split; [simpl; by rewrite Hlen|].
    constructor; [exact (parse_patch_has_shape h wd r p Hp) | exact Hall].
Qed.

(** X14. Serving keeps the batch and the shape: when a request of serialized
    examples is answered, the 'patch' feature holds one patch per example,
    each of shape (height, width) as discovered; a request with an example
    that does not parse to that shape is refused as a whole. *)
Theorem served_patches_have_shape (w w1 : World) (h wd : Z) :
  read_patch_dimensions w = (Ok (Some (h, wd)), w1) ->
  ∃ sir,
    serving_fn w = (Ok sir, w1)
    ∧ (forall rs ps,
         served_feature sir "patch" placeholder (Strings rs) = Ok (Patches ps) ->
         length ps = length rs
         ∧ Forall (has_shape (Z.to_nat h) (Z.to_nat wd)) ps)
    ∧ (forall rs r err,
         r ∈ rs ->
         parse_patch (h, wd) r = Raise err ->
         ∃ err', served_feature sir "patch" placeholder (Strings rs)
                 = Raise err').
Proof.
  intros Hdims. eexists. split; [by apply serving_fn_run|].
  assert (Hfed : forall rs,
             served_feature
               {| sir_features :=
                    {[ "patch" := parse_example_patch placeholder (h, wd) ]};
                  receiver_tensors := parse_example_patch placeholder (h, wd);
                  receiver_tensors_alternatives :=
                    {[ "example" := placeholder;
                       "patch" := parse_example_patch placeholder (h, wd) ]} |}
               "patch" placeholder (Strings rs)
             = match parse_batch (h, wd) rs with
               | Ok ps => Ok (Patches ps)
               | Raise e => Raise e
               end).
  { intros rs. unfold served_feature. simpl sir_features.
    rewrite lookup_singleton_eq. reflexivity. }
  split.
  - intros rs ps. rewrite Hfed.
    destruct (parse_batch (h, wd) rs) as [ps'|err] eqn:Hbatch; [|discriminate].
    intros [= <-]. by apply parse_batch_has_shape.
  - intros rs r err Hin Hbad. rewrite Hfed.
    assert (Hfail : ∃ err', parse_batch (h, wd) rs = Raise err').
    { induction rs as [|r' rs IH]; [by apply elem_of_nil in Hin|].
      simpl. apply elem_of_cons in Hin as [<-|Hin].
      - rewrite Hbad. by eexists.
      - destruct (parse_patch (h, wd) r'); [|by eexists].
        destruct (IH Hin) as [err' ->]. by eexists. }
    destruct Hfail as [err' ->]. by eexists.
Qed.

Lemma served_patches_have_shape_witness :
  read_patch_dimensions (sample_world false good_files)
  = (Ok (Some (2, 3)), (read_patch_dimensions (sample_world false good_files)).2)
  ∧ ∃ sir,
      (serving_fn (sample_world false good_files)).1 = Ok sir
      ∧ forall rs ps,
          served_feature sir "patch" placeholder (Strings rs) = Ok (Patches ps) ->
          length ps = length rs ∧ Forall (has_shape 2 3) ps.
Proof.
  assert (Hdims : read_patch_dimensions (sample_world false good_files)
                  = (Ok (Some (2, 3)),
                     (read_patch_dimensions (sample_world false good_files)).2))
    by reflexivity.
  split; [exact Hdims|].
  destruct (served_patches_have_shape _ _ 2 3 Hdims) as (sir & Hrun & Hshape & _).
  exists sir. split; [by rewrite Hrun|]. exact Hshape.
Defined.

(** X15. Every example the parser returns carries a 'patch' of shape
    (height, width), the shape the parser was built with, provided the
    rotation operator returns an image of the shape it was given: parsing,
    the shift and the two inversions all keep the shape. *)
Theorem parser_patch_has_shape
    (bilinear_rotation : Patch -> Q -> Patch) (weights_from_labels : Z -> Q)
    (patch_height patch_width : Z) (r : record) (w w' : World)
    (out : gmap string Tensor) (label : Z) :
  (forall H W p angle,
     has_shape H W p -> has_shape H W (bilinear_rotation p angle)) ->
  parser bilinear_rotation weights_from_labels patch_height patch_width r w
  = (Ok (out, label), w') ->
  ∃ p, out !! "patch" = Some (float_matrix p)
       ∧ has_shape (Z.to_nat patch_height) (Z.to_nat patch_width) p.
Proof.
  intros Hrotate Hrun.
  destruct (parse_single_example r
              (parser_feature_types patch_height patch_width
                                    (use_included_label_weight (FLAGS w))))
    as [parsed|err] eqn:Hparse;
    [|by rewrite (parser_raises _ _ _ _ _ _ _ Hparse) in Hrun].
  destruct (parser_run bilinear_rotation weights_from_labels _ _ _ _ _ Hparse)
    as (e & label' & weight & -> & _ & _ & Hshape & _ & Hrun').
  rewrite Hrun' in Hrun. rewrite augment_bind in Hrun.
  destruct (_augment_shift _ w) as [[shifted|err] w1] eqn:Hshift;
    [|discriminate].
  apply (augment_shift_has_shape _ _ _ _ _ _ Hshape) in Hshift.
  rewrite augment_rotation_run in Hrun.
  destruct shifted as [|[|x row] shifted]; try discriminate.
  set (inverted := one_minus ((x :: row) :: shifted)) in *.
  assert (Hinverted : has_shape (Z.to_nat patch_height) (Z.to_nat patch_width)
                                inverted) by (by apply one_minus_has_shape).
  destruct (rotate bilinear_rotation inverted _) as [rotated|err] eqn:Hrotated;
    [|discriminate].
  injection Hrun as <- _ _.
  eexists. split; [apply lookup_insert_eq|].
  apply one_minus_has_shape.
  unfold rotate, inverted in Hrotated. simpl in Hrotated.
  injection Hrotated as <-. by apply Hrotate.
Qed.

Lemma parser_patch_has_shape_witness :
  (forall H W p (angle : Q),
     has_shape H W p -> has_shape H W ((fun q _ => q) p angle))
  ∧ ∃ out label w',
      parser (fun p _ => p) inject_Z 2 3 sample_record
             (sample_world false good_files)
      = (Ok (out, label), w')
      ∧ ∃ p, out !! "patch" = Some (float_matrix p) ∧ has_shape 2 3 p.
Proof.
  assert (Hrotate : forall H W p (angle : Q),
            has_shape H W p -> has_shape H W ((fun q (_ : Q) => q) p angle))
    by (intros H W p angle Hshape; exact Hshape).
  split; [exact Hrotate|].
  assert (Hsome : ∃ out label w',
             parser (fun p _ => p) inject_Z 2 3 sample_record
                    (sample_world false good_files)
             = (Ok (out, label), w'))
    by (eexists _, _, _; vm_compute; reflexivity).
  destruct Hsome as (out & label & w' & Hrun).
  exists out, label, w'. split; [exact Hrun|].
  exact (parser_patch_has_shape (fun p _ => p) inject_Z 2 3 sample_record
           _ _ out label Hrotate Hrun).
Defined.

(** ** One shape for every consumer *)

(** X16. Once read_patch_dimensions has returned (height, width), every
    consumer in any later state that still holds the cache uses that same
    shape without looking at the files again: the feature column is built
    with it, the serving receiver parses 'patch' with it, and input_fn builds
    its parser with it, even if the files or the flags have changed since. *)
Theorem patch_shape_shared_by_consumers
    (bilinear_rotation : Patch -> Q -> Patch) (weights_from_labels : Z -> Q)
    {BatchedTensor : Type}
    (get_batched_tensor : Dataset (gmap string Tensor * Z) -> BatchedTensor)
    {NumericColumn : Type}
    (numeric_column : string -> option (Z * Z) -> NumericColumn)
    (input_patches : option string) (w w1 w2 : World) (h wd : Z) :
  read_patch_dimensions w = (Ok (Some (h, wd)), w1) ->
  _results w2 = _results w1 ->
  create_patch_feature_column numeric_column w2
  = (Ok (numeric_column "patch" (Some (h, wd))), w2)
  ∧ (∃ sir, serving_fn w2 = (Ok sir, w2)
            ∧ sir_features sir !! "patch"
              = Some (parse_example_patch placeholder (h, wd)))
  ∧ input_fn bilinear_rotation weights_from_labels get_batched_tensor input_patches w2
    = match get_matching_files input_patches w2 with
      | (Ok files, w3) =>
          (Ok (get_batched_tensor
                 (dataset_map (parser bilinear_rotation weights_from_labels h wd)
                              (TFRecordDataset files))), w3)
      | (Raise e, w3) => (Raise e, w3)
      end.
Proof.
  intros Hfirst Hcache. apply read_patch_dimensions_caches in Hfirst.
  assert (Hdims : read_patch_dimensions w2 = (Ok (Some (h, wd)), w2))
    by (apply read_patch_dimensions_cached; congruence).
  split; [|split].
  - unfold create_patch_feature_column. unfold_binds. by rewrite Hdims.
  - eexists. split; [by apply serving_fn_run|]. apply lookup_singleton_eq.
  - by apply input_fn_run.
Qed.

Lemma patch_shape_shared_by_consumers_witness :
  read_patch_dimensions (sample_world false good_files)
  = (Ok (Some (2, 3)), (read_patch_dimensions (sample_world false good_files)).2)
  ∧ create_patch_feature_column (fun key shape => (key, shape))
      (store_result (Some (2, 3)) (sample_world true no_files))
    = (Ok ("patch", Some (2, 3)),
       store_result (Some (2, 3)) (sample_world true no_files)).
Proof.
  assert (Hdims : read_patch_dimensions (sample_world false good_files)
                  = (Ok (Some (2, 3)),
                     (read_patch_dimensions (sample_world false good_files)).2))
    by reflexivity.
  split; [exact Hdims|].
  destruct (patch_shape_shared_by_consumers
              (fun p _ => p) inject_Z (fun d => d) (fun key shape => (key, shape))
              None _ _ (store_result (Some (2, 3)) (sample_world true no_files))
              2 3 Hdims eq_refl) as (Hcolumn & _ & _).
  exact Hcolumn.
Defined.

(** ** The training driver *)

(** X18. train_and_evaluate builds the TrainSpec first and the EvalSpec
    next. With train_max_steps at 0 or below the TrainSpec constructor
    refuses it: train_and_evaluate raises ValueError, the training driver is
    not called and the state is untouched, although the help text of the
    flag announces, for 0, training until the process is interrupted. With a
    positive train_max_steps and a non-negative eval_throttle_secs the driver
    is called with the two specs. *)
Theorem train_and_evaluate_checks_max_steps
    (bilinear_rotation : Patch -> Q -> Patch) (weights_from_labels : Z -> Q)
    {BatchedTensor : Type}
    (get_batched_tensor : Dataset (gmap string Tensor * Z) -> BatchedTensor)
    {Estimator : Type}
    (tf_estimator_train_and_evaluate :
       Estimator -> TrainSpec -> EvalSpec -> M unit)
    (estimator : Estimator) (w : World) :
  (train_max_steps (FLAGS w) ≤ 0 ->
   train_and_evaluate bilinear_rotation weights_from_labels get_batched_tensor
                      tf_estimator_train_and_evaluate estimator w
   = (Raise ValueError, w))
  ∧ (0 < train_max_steps (FLAGS w) ->
     0 ≤ eval_throttle_secs (FLAGS w) ->
     train_and_evaluate bilinear_rotation weights_from_labels get_batched_tensor
                        tf_estimator_train_and_evaluate estimator w
     = tf_estimator_train_and_evaluate estimator
         (make_train_spec bilinear_rotation weights_from_labels
                          get_batched_tensor (FLAGS w))
         (make_eval_spec bilinear_rotation weights_from_labels
                         get_batched_tensor (FLAGS w))
         w).
Proof.
  unfold train_and_evaluate, TrainSpec_new, EvalSpec_new. unfold_binds.
  split.
  - intros Hsteps.
    destruct (decide (max_steps _ ≤ 0)) as [_|Hok];
      [reflexivity | simpl in Hok; lia].
  - intros Hsteps Hthrottle.
    destruct (decide (max_steps _ ≤ 0)) as [Hbad|_]; [simpl in Hbad; lia|].
    destruct (decide (start_delay_secs _ < 0)) as [Hbad|_];
      [simpl in Hbad; lia|].
    destruct (decide (throttle_secs _ < 0)) as [Hbad|_];
      [simpl in Hbad; lia|].
    reflexivity.
Qed.

Lemma train_and_evaluate_checks_max_steps_witness :
  train_max_steps (FLAGS (with_shift_probability (1 # 2))) ≤ 0
  ∧ train_and_evaluate (fun p _ => p) inject_Z (fun d => d)
                       (fun (_ : unit) _ _ => mret ()) ()
                       (with_shift_probability (1 # 2))
    = (Raise ValueError, with_shift_probability (1 # 2)).
Proof.
  assert (Hsteps : train_max_steps (FLAGS (with_shift_probability (1 # 2))) ≤ 0)
    by (simpl; lia).
  split; [exact Hsteps|].
  destruct (train_and_evaluate_checks_max_steps
              (fun p _ => p) inject_Z (fun d => d)
              (fun (_ : unit) _ _ => mret ()) ()
              (with_shift_probability (1 # 2))) as [Hraise _].
  exact (Hraise Hsteps).
Defined.
